(** * FlashMemo: storage service, Gemini client and batch reconciliation

    A shallow embedding of the TypeScript sources of FlashMemo:

    - [types.ts]: the [Memory] record and the search result shapes;
    - [services/storageService.ts]: [getMemories], [saveMemory],
      [updateMemory], [clearMemories] over one [localStorage] key;
    - [services/geminiService.ts]: [analyzeInput], [semanticSearch],
      [generateSuggestions];
    - [App.tsx]: [refreshMemories], [processedMemories], [handleSearch],
      [handleClearSearch], [handleBatchProcess] (the audio-aware variant);
    - [components/CaptureBar.tsx]: [handleTextSubmit];
    - [components/SmartSuggestions.tsx]: the [useEffect] body.

    Modelling conventions.

    - A JavaScript string is a [string] holding its UTF-8 bytes; a string is
      truthy when it is not empty.
    - [timestamp] and [Date] values are integers (milliseconds since the
      epoch), so [new Date(mem.timestamp)] is the identity. A [Date] is valid
      within 8 640 000 000 000 000 ms of the epoch ([inDateRange]); outside
      it [contextDate.toISOString()] raises a [RangeError] before any request
      is built. [Date.now()] and the date picked in the capture form are
      valid; a stored timestamp need not be, and [analyzeInput] is modelled
      for valid dates only: a statement that concludes a request or a
      reconciled record from a stored timestamp assumes [DatesInRange] of
      the records the run visits.
    - An optional field ([status?], [audioData?], [mimeType?]) is an [option];
      [JSON.stringify] drops an [undefined] field and [JSON.parse] gives it
      back as [undefined], so the value kept under the storage key is modelled
      by what [JSON.parse] yields for it.
    - Effects (storage, [alert], [console.error], the remote model, React
      state) are threaded through a [World] by a state-and-exception monad;
      [await] is sequencing, a rejected promise is a thrown exception.
    - [getMemories], [saveMemory], [updateMemory] and [clearMemories] are
      given as functions of the stored value; the [console.error] of the
      [catch] branch of [getMemories] ([loadErrors]) is added where a handler
      calls them ([readStorage], [setStorage]).
    - The remote model is an oracle indexed by the number of requests made so
      far, so two calls with the same arguments may answer differently.
    - [localStorage.setItem] is assumed not to exceed the storage quota. *)

From stdpp Require Import base gmap list strings sorting.
From Stdlib Require Import ZArith Ascii.

Open Scope string_scope.
Open Scope list_scope.
Open Scope nat_scope.
Open Scope stdpp_scope.

(** ** types.ts *)

Inductive Status := pending | processed.

Global Instance Status_eq_dec : EqDecision Status.
Proof. solve_decision. Defined.

(** [MetaTags]: the keys are not validated locally (the extraction result is
    typed [any]), so a tag map is a finite map from key names to string
    lists. *)
Abbreviation MetaTags := (gmap string (list string)).

Record Memory := mkMemory {
  id : string;
  rawContent : string;
  processedContent : string;
  timestamp : Z;
  tags : MetaTags;
  status : option Status;
  audioData : option string;
  mimeType : option string
}.

Global Instance Memory_eq_dec : EqDecision Memory.
Proof. solve_decision. Defined.

Record ClusterItem := mkClusterItem {
  memoryId : string;
  snippet : string;
  relevance : string
}.

Record ResultCluster := mkResultCluster {
  dimension : string;
  title : string;
  items : list ClusterItem
}.

Record SearchResult := mkSearchResult {
  directAnswer : option string;
  clusters : list ResultCluster
}.

(** The value [analyzeInput] resolves to: [{ processedContent, tags }]. *)
Record Extraction := mkExtraction {
  ex_processedContent : string;
  ex_tags : MetaTags
}.

(** ** JavaScript helpers *)

(** Truthiness of a string. *)
Definition truthy (s : string) : bool := negb (String.eqb s "").

(** [m.status || 'processed'] *)
Definition status_or_processed (o : option Status) : Status :=
  match o with
  | Some s => s
  | None => processed
  end.

(** [arr.findIndex(p)]: the first index whose element satisfies [p];
    [None] stands for the [-1] of JavaScript. *)
Definition findIndex {A} (P : A → Prop) `{∀ x, Decision (P x)}
    (l : list A) : option nat :=
  fst <$> list_find P l.

(** [arr.slice(0, n)] *)
Definition slice0 {A} (n : nat) (l : list A) : list A := take n l.

(** [arr.join(sep)] on strings *)
Definition join (sep : string) (l : list string) : string :=
  String.concat sep l.

(** [!text.trim()]: true exactly when [text] consists of white space and line
    terminators only. The code points removed by [trim] are recognised in
    their UTF-8 encoding. *)
Definition ascii_space (a : N) : bool :=
  ((9 <=? a) && (a <=? 13) || (a =? 32))%N.

Definition space2 (a b : N) : bool := ((a =? 194) && (b =? 160))%N.

Definition space3 (a b c : N) : bool :=
  (((a =? 225) && (b =? 154) && (c =? 128))
   || ((a =? 226) && (b =? 128)
       && (((128 <=? c) && (c <=? 138)) || (c =? 168) || (c =? 169)
           || (c =? 175)))
   || ((a =? 226) && (b =? 129) && (c =? 159))
   || ((a =? 227) && (b =? 128) && (c =? 128))
   || ((a =? 239) && (b =? 187) && (c =? 191)))%N.

Fixpoint all_space (l : list N) : bool :=
  match l with
  | [] => true
  | a :: r =>
      if ascii_space a then all_space r
      else
        match r with
        | [] => false
        | b :: r2 =>
            if space2 a b then all_space r2
            else
              match r2 with
              | [] => false
              | c :: r3 => if space3 a b c then all_space r3 else false
              end
        end
  end.

Definition trim_is_empty (text : string) : bool :=
  all_space (Ascii.N_of_ascii <$> String.list_ascii_of_string text).

(** ** services/storageService.ts *)

(** What is kept under [STORAGE_KEY]: text that [JSON.parse] rejects (or that
    does not parse to an array), or the array of records that
    [JSON.stringify] wrote. *)
Inductive Item :=
  | Unparseable
  | Json (records : list Memory).

(** [localStorage.getItem(STORAGE_KEY)]: [None] is [null]. *)
Abbreviation Storage := (option Item).

(** [{ ...m, status: m.status || 'processed' }] *)
Definition withStatus (m : Memory) : Memory :=
  {| id := id m;
     rawContent := rawContent m;
     processedContent := processedContent m;
     timestamp := timestamp m;
     tags := tags m;
     status := Some (status_or_processed (status m));
     audioData := audioData m;
     mimeType := mimeType m |}.

Definition getMemories (st : Storage) : list Memory :=
  match st with
  | None => []
  | Some Unparseable => []
  | Some (Json parsed) => withStatus <$> parsed
  end.

Definition saveMemory (memory : Memory) (st : Storage) : Storage :=
  let current := getMemories st in
  let updated := memory :: current in
  Some (Json updated).

Definition updateMemory (memory : Memory) (st : Storage) : Storage :=
  let current := getMemories st in
  match findIndex (λ m, id m = id memory) current with
  | Some index => Some (Json (<[index := memory]> current))
  | None => st
  end.

Definition clearMemories (st : Storage) : Storage := None.

(** The calls of the persistence adapter, and a sequence of them applied in
    order. *)
Inductive StorageCall :=
  | Insert (m : Memory)
  | UpdateById (m : Memory)
  | ClearAll.

Definition runCall (st : Storage) (c : StorageCall) : Storage :=
  match c with
  | Insert m => saveMemory m st
  | UpdateById m => updateMemory m st
  | ClearAll => clearMemories st
  end.

Definition runCalls (st : Storage) (cs : list StorageCall) : Storage :=
  foldl runCall st cs.

(** The effect the interface description gives to each call, on the
    collection itself: insert prepends, update-by-id replaces the record with
    the matching id (nothing happens when there is none), clear-all empties. *)
Definition replaceById (m : Memory) (l : list Memory) : list Memory :=
  match findIndex (λ x, id x = id m) l with
  | Some i => <[i := m]> l
  | None => l
  end.

Definition specEffect (l : list Memory) (c : StorageCall) : list Memory :=
  match c with
  | Insert m => m :: l
  | UpdateById m => replaceById m l
  | ClearAll => []
  end.

Definition specEffects (l : list Memory) (cs : list StorageCall) : list Memory :=
  foldl specEffect l cs.

(** ** The world the handlers run in *)

(** The argument of [analyzeInput]: a string or [{ mimeType, data }]. *)
Inductive AnalyzePayload :=
  | TextInput (text : string)
  | AudioInput (mime data : string).

(** One call of [ai.models.generateContent], recorded by the arguments its
    prompt is built from. *)
Inductive Request :=
  | ExtractionRequest (input : AnalyzePayload) (contextDate : Z)
  | SearchRequest (query : string) (memories : list Memory)
  | SuggestionRequest (recent : string).

(** What comes back: the promise is rejected, [response.text] is missing or
    empty, [JSON.parse(response.text)] throws, or it yields a value. *)
Inductive Response (A : Type) :=
  | Rejected
  | NoText
  | BadJson
  | Body (v : A).

Arguments Rejected {A}.
Arguments NoText {A}.
Arguments BadJson {A}.
Arguments Body {A} v.

(** The remote model. The first argument is the number of requests issued
    before this one. *)
Record Remote := mkRemote {
  extractionResponse : nat → AnalyzePayload → Z → Response Extraction;
  searchResponse : nat → string → list Memory → Response SearchResult;
  suggestionResponse : nat → string → Response (list string)
}.

(** React state of [App] and of [SmartSuggestions]. *)
Record UI := mkUI {
  ui_memories : list Memory;
  ui_query : string;
  ui_searchResult : option SearchResult;
  ui_isSearching : bool;
  ui_isProcessingPending : bool;
  ui_suggestions : list string;
  ui_loading : bool
}.

Record World := mkWorld {
  localStorage : Storage;
  alerts : list string;
  consoleErrors : list string;
  requests : list Request;
  ui : UI
}.

Inductive Exn :=
  | Error (message : string)
  | SyntaxError
  | RemoteFailure.

Inductive Result (A : Type) :=
  | Ok (a : A)
  | Throw (e : Exn).

Arguments Ok {A} a.
Arguments Throw {A} e.

Definition Eff (A : Type) : Type := World → Result A * World.

Global Instance Eff_ret : MRet Eff := λ A a w, (Ok a, w).

Global Instance Eff_bind : MBind Eff := λ A B k c w,
  match c w with
  | (Ok a, w1) => k a w1
  | (Throw e, w1) => (Throw e, w1)
  end.

Definition ret {A} (a : A) : Eff A := mret a.

Definition throw {A} (e : Exn) : Eff A := λ w, (Throw e, w).

(** [try { c } catch (e) { h e }] *)
Definition try_catch {A} (c : Eff A) (h : Exn → Eff A) : Eff A :=
  λ w, match c w with
       | (Ok a, w1) => (Ok a, w1)
       | (Throw e, w1) => h e w1
       end.

(** [try { c } finally { f }] *)
Definition try_finally {A} (c : Eff A) (f : Eff unit) : Eff A :=
  λ w, match c w with
       | (r, w1) =>
           match f w1 with
           | (Ok _, w2) => (r, w2)
           | (Throw e, w2) => (Throw e, w2)
           end
       end.

(** [for (const x of l) { body x }] *)
Fixpoint for_of {A} (l : list A) (body : A → Eff unit) : Eff unit :=
  match l with
  | [] => ret tt
  | x :: rest => (body x ;; for_of rest body)
  end.

Definition modify (f : World → World) : Eff unit := λ w, (Ok tt, f w).

(** What one call of [getMemories] writes to the console: the [catch]
    branch runs exactly when the stored text does not parse into records. *)
Definition loadErrors (st : Storage) : list string :=
  match st with
  | Some Unparseable => ["Failed to load memories"]
  | _ => []
  end.

(** A call of [saveMemory] or [updateMemory]: both start with
    [const current = getMemories()], then write. *)
Definition setStorage (f : Storage → Storage) : Eff unit :=
  modify (λ w, mkWorld (f (localStorage w)) (alerts w)
                       (consoleErrors w ++ loadErrors (localStorage w))
                       (requests w) (ui w)).

(** A call of [clearMemories]: the key is removed, nothing is read. *)
Definition removeStorage : Eff unit :=
  modify (λ w, mkWorld (clearMemories (localStorage w)) (alerts w)
                       (consoleErrors w) (requests w) (ui w)).

(** A call of [getMemories]. *)
Definition readStorage : Eff (list Memory) :=
  λ w, (Ok (getMemories (localStorage w)),
        mkWorld (localStorage w) (alerts w)
                (consoleErrors w ++ loadErrors (localStorage w))
                (requests w) (ui w)).

Definition alert (msg : string) : Eff unit :=
  modify (λ w, mkWorld (localStorage w) (alerts w ++ [msg]) (consoleErrors w)
                       (requests w) (ui w)).

Definition console_error (msg : string) : Eff unit :=
  modify (λ w, mkWorld (localStorage w) (alerts w) (consoleErrors w ++ [msg])
                       (requests w) (ui w)).

Definition setUI (f : UI → UI) : Eff unit :=
  modify (λ w, mkWorld (localStorage w) (alerts w) (consoleErrors w)
                       (requests w) (f (ui w))).

Definition setMemories (ms : list Memory) : Eff unit :=
  setUI (λ u, mkUI ms (ui_query u) (ui_searchResult u) (ui_isSearching u)
                   (ui_isProcessingPending u) (ui_suggestions u) (ui_loading u)).

Definition setQuery (q : string) : Eff unit :=
  setUI (λ u, mkUI (ui_memories u) q (ui_searchResult u) (ui_isSearching u)
                   (ui_isProcessingPending u) (ui_suggestions u) (ui_loading u)).

Definition setSearchResult (r : option SearchResult) : Eff unit :=
  setUI (λ u, mkUI (ui_memories u) (ui_query u) r (ui_isSearching u)
                   (ui_isProcessingPending u) (ui_suggestions u) (ui_loading u)).

Definition setIsSearching (b : bool) : Eff unit :=
  setUI (λ u, mkUI (ui_memories u) (ui_query u) (ui_searchResult u) b
                   (ui_isProcessingPending u) (ui_suggestions u) (ui_loading u)).

Definition setIsProcessingPending (b : bool) : Eff unit :=
  setUI (λ u, mkUI (ui_memories u) (ui_query u) (ui_searchResult u)
                   (ui_isSearching u) b (ui_suggestions u) (ui_loading u)).

Definition setSuggestions (l : list string) : Eff unit :=
  setUI (λ u, mkUI (ui_memories u) (ui_query u) (ui_searchResult u)
                   (ui_isSearching u) (ui_isProcessingPending u) l (ui_loading u)).

Definition setLoading (b : bool) : Eff unit :=
  setUI (λ u, mkUI (ui_memories u) (ui_query u) (ui_searchResult u)
                   (ui_isSearching u) (ui_isProcessingPending u)
                   (ui_suggestions u) b).

(** [await ai.models.generateContent(...)] followed by the
    [if (response.text) return JSON.parse(response.text)] of the caller:
    the request is recorded, then the answer of the remote model decides.
    [onNoText] is what the caller does when [response.text] is falsy. *)
Definition generateContent {A} (req : Request) (answer : nat → Response A)
    (onNoText : Eff A) : Eff A :=
  λ w,
    let w1 := mkWorld (localStorage w) (alerts w) (consoleErrors w)
                      (requests w ++ [req]) (ui w) in
    match answer (length (requests w)) with
    | Rejected => (Throw RemoteFailure, w1)
    | NoText => onNoText w1
    | BadJson => (Throw SyntaxError, w1)
    | Body v => (Ok v, w1)
    end.

(** ** services/geminiService.ts *)

Section Client.
Context (remote : Remote).

(** [contextDate] is a valid [Date] here (see [inDateRange]): the prompt,
    built first, interpolates [contextDate.toISOString()]. *)
Definition analyzeInput (input : AnalyzePayload) (contextDate : Z)
    : Eff Extraction :=
  generateContent (ExtractionRequest input contextDate)
    (λ n, extractionResponse remote n input contextDate)
    (throw (Error "Failed to analyze input")).

Definition semanticSearch (query : string) (memories : list Memory)
    : Eff SearchResult :=
  generateContent (SearchRequest query memories)
    (λ n, searchResponse remote n query memories)
    (throw (Error "Failed to perform search")).

Definition staticSuggestions : list string :=
  [ "我最近买了什么？"; "昨天我见了谁？"; "显示我的待办事项" ].

Definition generateSuggestions (memories : list Memory)
    : Eff (list string) :=
  if decide (length memories = 0) then ret staticSuggestions
  else
    let recent := join "; " (processedContent <$> slice0 10 memories) in
    generateContent (SuggestionRequest recent)
      (λ n, suggestionResponse remote n recent)
      (ret []).

(** ** components/SmartSuggestions.tsx *)

Definition fallbackSuggestions : list string :=
  [ "我今天做了什么？"; "显示我提到的人"; "查看最近的购物" ].

(** The body of the [useEffect] of [SmartSuggestions], run with the
    [memories] prop of the current render. *)
Definition SmartSuggestions_effect (memories : list Memory) : Eff unit :=
  if decide (0 < length memories) then
    (setLoading true ;;
     try_finally
       (try_catch
          (l ← generateSuggestions memories; setSuggestions l)
          (λ _, setSuggestions fallbackSuggestions))
       (setLoading false))
  else ret tt.

(** ** App.tsx *)

(** [loaded.sort((a, b) => b.timestamp - a.timestamp)]: a stable sort,
    newest first. *)
Fixpoint insertByTimestamp (x : Memory) (l : list Memory) : list Memory :=
  match l with
  | [] => [x]
  | y :: r =>
      if (timestamp x <? timestamp y)%Z then y :: insertByTimestamp x r
      else x :: y :: r
  end.

Definition sortNewestFirst (l : list Memory) : list Memory :=
  foldr insertByTimestamp [] l.

Definition refreshMemories : Eff unit :=
  (loaded ← readStorage;
   let sorted := sortNewestFirst loaded in
   setMemories sorted).

(** [memories.filter(m => m.status === 'processed')] *)
Definition processedMemories (memories : list Memory) : list Memory :=
  filter (λ m, status m = Some processed) memories.

Definition pendingMemories (memories : list Memory) : list Memory :=
  filter (λ m, status m = Some pending) memories.

Definition handleClearSearch : Eff unit :=
  (setQuery "" ;; setSearchResult None ;; setIsSearching false).

Definition handleSearch (text : string) : Eff unit :=
  λ w,
    let memories := ui_memories (ui w) in
    if trim_is_empty text then handleClearSearch w
    else
      (setQuery text ;;
       setIsSearching true ;;
       try_finally
         (try_catch
            (result ← semanticSearch text (processedMemories memories);
             setSearchResult (Some result))
            (λ _, console_error "Search error"))
         (setIsSearching false)) w.

(** The payload [handleBatchProcess] sends for one memory. *)
Definition payloadOf (mem : Memory) : AnalyzePayload :=
  match audioData mem, mimeType mem with
  | Some data, Some mime =>
      if truthy data && truthy mime then AudioInput mime data
      else TextInput (rawContent mem)
  | _, _ => TextInput (rawContent mem)
  end.

(** [{ ...mem, processedContent, tags, status: 'processed' }] *)
Definition updatedMem (mem : Memory) (result : Extraction) : Memory :=
  {| id := id mem;
     rawContent := rawContent mem;
     processedContent := ex_processedContent result;
     timestamp := timestamp mem;
     tags := ex_tags result;
     status := Some processed;
     audioData := audioData mem;
     mimeType := mimeType mem |}.

(** The body of the [for] loop of [handleBatchProcess]. *)
Definition reconcile (mem : Memory) : Eff unit :=
  (let contextDate := timestamp mem in
   result ← analyzeInput (payloadOf mem) contextDate ;
   setStorage (updateMemory (updatedMem mem result))).

Definition batchFailureNotice : string := "部分记忆整理失败，请重试".

Definition handleBatchProcess : Eff unit :=
  λ w,
    let memories := ui_memories (ui w) in
    let pending := pendingMemories memories in
    if decide (length pending = 0) then (Ok tt, w)
    else
      (setIsProcessingPending true ;;
       try_finally
         (try_catch
            (for_of pending reconcile ;; refreshMemories)
            (λ _, console_error "Batch processing failed" ;;
                  alert batchFailureNotice))
         (setIsProcessingPending false)) w.

(** [<SmartSuggestions memories={processedMemories} ... />]: [App] mounts
    the component (while there is no search result and no search is
    running) with the processed memories of the current render, and the
    effect of the component runs with that prop. *)
Definition App_suggestions : Eff unit :=
  λ w, SmartSuggestions_effect (processedMemories (ui_memories (ui w))) w.

(** ** components/CaptureBar.tsx *)

(** [handleTextSubmit] with the [text] state, [customDate], the value of
    [Date.now()] and the string [generateId()] returns. [onMemoryAdded] is
    [refreshMemories]. *)
Definition handleTextSubmit (text : string) (customDate : option Z)
    (now : Z) (newId : string) : Eff unit :=
  if trim_is_empty text then ret tt
  else
    let timestamp := match customDate with Some d => d | None => now end in
    let newMemory :=
      {| id := newId;
         rawContent := text;
         processedContent := text;
         timestamp := timestamp;
         tags := ∅;
         status := Some pending;
         audioData := None;
         mimeType := None |} in
    (setStorage (saveMemory newMemory) ;; refreshMemories).

End Client.

(** ** Vocabulary of the statements *)

(** The React state lists what the storage holds: the situation
    [refreshMemories] establishes. *)
Definition Synced (w : World) : Prop :=
  ui_memories (ui w) ≡ₚ getMemories (localStorage w).

(** Ids are unique among the stored records. *)
Definition UniqueIds (st : Storage) : Prop :=
  NoDup (id <$> getMemories st).

(** The timestamps [new Date(t)] turns into a valid [Date], for which
    [toISOString()] returns: at most 8.64e15 ms from the epoch. *)
Definition inDateRange (t : Z) : Prop :=
  (-8640000000000000 ≤ t ≤ 8640000000000000)%Z.

Global Instance inDateRange_dec (t : Z) : Decision (inDateRange t).
Proof. unfold inDateRange. apply _. Defined.

(** Every record of the list carries such a timestamp. *)
Definition DatesInRange (ms : list Memory) : Prop :=
  Forall (λ m, inDateRange (timestamp m)) ms.

(** The request the loop of [handleBatchProcess] issues for a memory. *)
Definition requestOf (mem : Memory) : Request :=
  ExtractionRequest (payloadOf mem) (timestamp mem).

(** What [analyzeInput] does for [mem] (with a timestamp in the [Date]
    range) when [c] requests were issued before: the value it resolves to,
    or the exception it throws. *)
Definition extractionOutcome (remote : Remote) (c : nat) (mem : Memory)
    : Result Extraction :=
  match extractionResponse remote c (payloadOf mem) (timestamp mem) with
  | Rejected => Throw RemoteFailure
  | NoText => Throw (Error "Failed to analyze input")
  | BadJson => Throw SyntaxError
  | Body v => Ok v
  end.

Definition extractionOf (remote : Remote) (c : nat) (mem : Memory)
    : option Extraction :=
  match extractionOutcome remote c mem with
  | Ok r => Some r
  | Throw _ => None
  end.

(** The records the loop gets through, each with its extraction result, and
    the exception that stopped it (if any), when the first request is the
    [c]-th. *)
Fixpoint outcomes (remote : Remote) (c : nat) (pend : list Memory)
    : list (Memory * Extraction) * option Exn :=
  match pend with
  | [] => ([], None)
  | mem :: rest =>
      match extractionOutcome remote c mem with
      | Ok r =>
          let '(ps, e) := outcomes remote (S c) rest in ((mem, r) :: ps, e)
      | Throw e => ([], Some e)
      end
  end.

(** The storage after the updates of the reconciled records, in order. *)
Definition persistAll (st : Storage) (ps : list (Memory * Extraction))
    : Storage :=
  foldl (λ s p, updateMemory (updatedMem p.1 p.2) s) st ps.

(** Extraction results by record id, and their effect on one record. *)
Definition resultsById (ps : list (Memory * Extraction))
    : gmap string Extraction :=
  list_to_map ((λ p, (id p.1, p.2)) <$> ps).

Definition applyResults (rs : gmap string Extraction) (x : Memory) : Memory :=
  match rs !! id x with
  | Some r => updatedMem x r
  | None => x
  end.

(** A record written without a status, as the [Memory] type allows. *)
Definition legacyRecord : Memory :=
  {| id := "a"; rawContent := "x"; processedContent := "x"; timestamp := 1;
     tags := ∅; status := None; audioData := None; mimeType := None |}.

(** The record a call hands to the service carries a status. *)
Definition callHasStatus (c : StorageCall) : Prop :=
  match c with
  | Insert m | UpdateById m => status m ≠ None
  | ClearAll => True
  end.

(** The extraction result of the scenario. *)
Definition milkExtraction : Extraction :=
  {| ex_processedContent := "购买牛奶";
     ex_tags := {[ "Object" := ["牛奶"] ]} |}.

(** The text of the suggestion prompt that depends on the memories. *)
Definition recentOf (memories : list Memory) : string :=
  join "; " (processedContent <$> slice0 10 memories).

(** ** Concrete values used by the examples *)

Definition textMemory (i : string) (t : Z) (s : option Status) : Memory :=
  {| id := i; rawContent := i; processedContent := i; timestamp := t;
     tags := ∅; status := s; audioData := None; mimeType := None |}.

Definition voiceMemory (i : string) (t : Z) : Memory :=
  {| id := i; rawContent := "[语音记录]";
     processedContent := "[语音记录] (待整理)"; timestamp := t; tags := ∅;
     status := Some pending; audioData := Some "QUJD";
     mimeType := Some "audio/webm" |}.

Definition emptyUI : UI := mkUI [] "" None false false [] false.

Definition emptyWorld : World := mkWorld None [] [] [] emptyUI.

(** Another extraction result. *)
Definition otherExtraction : Extraction :=
  {| ex_processedContent := "OTHER"; ex_tags := ∅ |}.

(** A remote model whose extraction call is rejected on the request number
    [n] (counted from 0) and answers [milkExtraction] otherwise; its other
    calls are rejected. *)
Definition rejectingAt (n : nat) : Remote :=
  {| extractionResponse := λ c _ _,
       if decide (c = n) then Rejected else Body milkExtraction;
     searchResponse := λ _ _ _, Rejected;
     suggestionResponse := λ _ _, Rejected |}.

(** A remote model that answers [milkExtraction] to the first request,
    rejects the second and answers [otherExtraction] from then on. *)
Definition flakyRemote : Remote :=
  {| extractionResponse := λ c _ _,
       match c with
       | 0 => Body milkExtraction
       | 1 => Rejected
       | _ => Body otherExtraction
       end;
     searchResponse := λ _ _ _, Rejected;
     suggestionResponse := λ _ _, Rejected |}.

(** A remote model that always answers; the suggestion call comes back
    without text. *)
Definition answering : Remote :=
  {| extractionResponse := λ _ _ _, Body milkExtraction;
     searchResponse := λ _ _ _, Body (mkSearchResult None []);
     suggestionResponse := λ _ _, NoText |}.

(** Three pending records and one processed record, as [refreshMemories]
    shows them. *)
Definition demoStorage : Storage :=
  Some (Json [ textMemory "c" 30 (Some pending); voiceMemory "v" 40;
               textMemory "d" 10 None; textMemory "a" 20 (Some pending) ]).

Definition demoWorld : World :=
  (refreshMemories
     (mkWorld demoStorage [] [] [] emptyUI)).2.

(** Ten pending records, newest first, then one processed record. *)
Definition tenPending : list Memory :=
  (λ n, textMemory (String (Ascii.ascii_of_nat (65 + n)) "")
          (100 - Z.of_nat n) (Some pending)) <$> seq 0 10.

Definition elevenWorld : World :=
  mkWorld (Some (Json (tenPending ++ [textMemory "old" 1 (Some processed)])))
    [] [] []
    (mkUI (tenPending ++ [textMemory "old" 1 (Some processed)])
       "" None false false [] false).

(** ** Further code *)

(** *** Strings: [s.split(sep)] for a one-character separator, and [arr[i]] *)

Fixpoint splitOn (sep : Ascii.ascii) (s : string) : list string :=
  match s with
  | EmptyString => [EmptyString]
  | String c rest =>
      if Ascii.eqb c sep then EmptyString :: splitOn sep rest
      else
        match splitOn sep rest with
        | [] => [String c EmptyString]
        | piece :: pieces => String c piece :: pieces
        end
  end.

(** Whether the character occurs in the string ([s.includes(c)]). *)
Fixpoint occurs (c : Ascii.ascii) (s : string) : bool :=
  match s with
  | EmptyString => false
  | String a rest => Ascii.eqb a c || occurs c rest
  end.

(** Truthiness of an optional string ([!!memory.audioData]). *)
Definition present (o : option string) : bool :=
  match o with
  | Some s => truthy s
  | None => false
  end.

(** *** components/CaptureBar.tsx, the variant that stores audio as pending *)

(** The two pieces [saveAudioMemory] cuts out of [reader.result]:
    [splitData[1]] and [splitData[0].split(':')[1].split(';')[0]]. The outer
    [None] is the [TypeError] of calling [split] on [undefined]; an inner
    [None] is [undefined]. *)
Definition parseDataUrl (base64data : string)
    : option (option string * option string) :=
  let splitData := splitOn ","%char base64data in
  let base64Content := splitData !! 1 in
  match head splitData with
  | None => None
  | Some first =>
      match splitOn ":"%char first !! 1 with
      | None => None
      | Some afterColon =>
          let mimeType := head (splitOn ";"%char afterColon) in
          Some (base64Content, mimeType)
      end
  end.

(** The [onloadend] callback of [saveAudioMemory], for a read that produced
    the string [base64data]. The callback runs outside the [try] of
    [saveAudioMemory], so what it throws is not caught there. *)
Definition saveAudioMemory_onloadend (base64data : string)
    (customDate : option Z) (now : Z) (newId : string) : Eff unit :=
  match parseDataUrl base64data with
  | None =>
      throw (Error "TypeError: Cannot read properties of undefined (reading 'split')")
  | Some (base64Content, mimeType) =>
      let timestamp := match customDate with Some d => d | None => now end in
      let newMemory :=
        {| id := newId;
           rawContent := "[语音记录]";
           processedContent := "[语音记录] (待整理)";
           timestamp := timestamp;
           tags := ∅;
           status := Some pending;
           audioData := base64Content;
           mimeType := mimeType |} in
      (setStorage (saveMemory newMemory) ;; refreshMemories)
  end.

(** *** components/CaptureBar.tsx, the variant that transcribes at capture *)

(** [base64data.split(',')[1]] and [base64data.split(';')[0].split(':')[1]];
    neither expression throws. *)
Definition parseDataUrl_atCapture (base64data : string)
    : option string * option string :=
  let base64Content := splitOn ","%char base64data !! 1 in
  let mimeType :=
    match head (splitOn ";"%char base64data) with
    | Some first => splitOn ":"%char first !! 1
    | None => None
    end in
  (base64Content, mimeType).

(** *** App.tsx: the clear-all button and audio playback *)

(** [() => { clearMemories(); refreshMemories(); }] *)
Definition handleClearAll : Eff unit :=
  (removeStorage ;; refreshMemories).

(** An [Audio] element: its source and whether it is playing. *)
Record AudioElement := mkAudio {
  src : string;
  playing : bool
}.

(** [playingAudioId], [audioRef.current], and the elements [audioRef] no
    longer points to. *)
Record Player := mkPlayer {
  playingAudioId : option string;
  audioRef : option AudioElement;
  released : list AudioElement
}.

Definition pause (a : AudioElement) : AudioElement := mkAudio (src a) false.

(** [`data:${mem.mimeType};base64,${mem.audioData}`] *)
Definition dataUrl (mime data : string) : string :=
  "data:" +:+ mime +:+ ";base64," +:+ data.

Definition playAudio (mem : Memory) (p : Player) : Player :=
  match audioData mem, mimeType mem with
  | Some data, Some mime =>
      if truthy data && truthy mime then
        match audioRef p with
        | Some current =>
            if bool_decide (playingAudioId p = Some (id mem)) then
              mkPlayer None (Some (pause current)) (released p)
            else
              mkPlayer (Some (id mem))
                (Some (mkAudio (dataUrl mime data) true))
                (pause current :: released p)
        | None =>
            mkPlayer (Some (id mem))
              (Some (mkAudio (dataUrl mime data) true))
              (released p)
        end
      else p
  | _, _ => p
  end.

(** [audio.onended = () => setPlayingAudioId(null)]: the element that was
    playing reaches its end. *)
Definition onended (p : Player) : Player :=
  match audioRef p with
  | Some current =>
      if playing current then mkPlayer None (Some (pause current)) (released p)
      else p
  | None => p
  end.

(** What the user does to the player: press the play button of a card, or
    let the recording run to its end. *)
Inductive PlayerEvent :=
  | PressPlay (mem : Memory)
  | PlaybackEnds.

Definition playerStep (p : Player) (e : PlayerEvent) : Player :=
  match e with
  | PressPlay mem => playAudio mem p
  | PlaybackEnds => onended p
  end.

Definition initialPlayer : Player := mkPlayer None None [].

(** *** App.tsx, the variant whose batch sends text only *)

Section TextOnlyVariant.
Context (remote : Remote).

Definition reconcile_textOnly (mem : Memory) : Eff unit :=
  (let contextDate := timestamp mem in
   result ← analyzeInput remote (TextInput (rawContent mem)) contextDate ;
   setStorage (updateMemory (updatedMem mem result))).

Definition handleBatchProcess_textOnly : Eff unit :=
  λ w,
    let memories := ui_memories (ui w) in
    let pending := pendingMemories memories in
    if decide (length pending = 0) then (Ok tt, w)
    else
      (setIsProcessingPending true ;;
       try_finally
         (try_catch
            (for_of pending reconcile_textOnly ;; refreshMemories)
            (λ _, console_error "Batch processing failed" ;;
                  alert batchFailureNotice))
         (setIsProcessingPending false)) w.

(** The rest of the [onloadend] callback of [processAudio], for a read on
    which both split expressions are defined ([mimeType], [base64Content]).
    The callback runs outside the [try] of [processAudio]. *)
Definition processAudio_onloadend (mimeType base64Content : string)
    (customDate : option Z) (now : Z) (newId : string) : Eff unit :=
  (let timestamp := match customDate with Some d => d | None => now end in
   let contextDate := timestamp in
   result ← analyzeInput remote (AudioInput mimeType base64Content) contextDate ;
   let newMemory :=
     {| id := newId;
        rawContent := "[语音记录]";
        processedContent := ex_processedContent result;
        timestamp := timestamp;
        tags := ex_tags result;
        status := Some processed;
        audioData := None;
        mimeType := None |} in
   (setStorage (saveMemory newMemory) ;; refreshMemories)).

End TextOnlyVariant.

(** *** A session: handlers invoked one after the other *)

Inductive Action :=
  | SubmitText (text : string) (customDate : option Z) (now : Z) (newId : string)
  | SaveAudio (base64data : string) (customDate : option Z) (now : Z)
      (newId : string)
  | BatchProcess
  | Search (text : string)
  | ClearSearch
  | ClearAll_
  | Refresh
  | Suggest.

Definition perform (remote : Remote) (w : World) (a : Action) : World :=
  match a with
  | SubmitText text customDate now newId =>
      (handleTextSubmit text customDate now newId w).2
  | SaveAudio base64data customDate now newId =>
      (saveAudioMemory_onloadend base64data customDate now newId w).2
  | BatchProcess => (handleBatchProcess remote w).2
  | Search text => (handleSearch remote text w).2
  | ClearSearch => (handleClearSearch w).2
  | ClearAll_ => (handleClearAll w).2
  | Refresh => (refreshMemories w).2
  | Suggest => (App_suggestions remote w).2
  end.

Definition performAll (remote : Remote) (w : World) (actions : list Action)
    : World :=
  foldl (perform remote) w actions.

(** The number on the batch button: [pendingCount]. *)
Definition pendingCount (w : World) : nat :=
  length (pendingMemories (ui_memories (ui w))).

(** What holds of the player at any time: no element [audioRef] has let go
    of is playing; a card is marked as playing only while the current
    element plays, and the current element plays only while a card is
    marked. *)
Definition PlayerOk (p : Player) : Prop :=
  Forall (λ a, playing a = false) (released p)
  ∧ (∀ i, playingAudioId p = Some i →
          ∃ a, audioRef p = Some a ∧ playing a = true)
  ∧ (∀ a, audioRef p = Some a → playing a = true →
          is_Some (playingAudioId p)).

(** What holds of the React list at any time of a session: it is sorted
    newest first, it shows the ids that are stored, and every record in it
    has a status. *)
Definition SessionOk (w : World) : Prop :=
  Sorted (λ a b, (timestamp b <= timestamp a)%Z) (ui_memories (ui w))
  ∧ id <$> ui_memories (ui w) ≡ₚ id <$> getMemories (localStorage w)
  ∧ Forall (λ m, is_Some (status m)) (ui_memories (ui w)).

(** A state with text records only: one pending, one stored without a
    status. *)
Definition textWorld : World :=
  (refreshMemories
     (mkWorld
        (Some (Json [ textMemory "c" 30 (Some pending);
                      textMemory "d" 10 None ]))
        [] [] [] emptyUI)).2.

(** * Properties *)

(** ** The storage service *)

Lemma withStatus_id m : id (withStatus m) = id m.
Proof. reflexivity. Qed.

Lemma withStatus_idemp m : withStatus (withStatus m) = withStatus m.
Proof. reflexivity. Qed.

Lemma withStatus_explicit m s : status m = Some s → withStatus m = m.
Proof. destruct m; simpl; intros ->; reflexivity. Qed.

Lemma getMemories_normal st : withStatus <$> getMemories st = getMemories st.
Proof.
  destruct st as [[|l]|]; simpl; try done.
  rewrite <- list_fmap_compose. apply list_fmap_ext. intros _ x _. reflexivity.
Qed.

Lemma getMemories_status st m :
  m ∈ getMemories st → status m = Some (status_or_processed (status m)).
Proof.
  rewrite <- getMemories_normal. intros (x & -> & _)%list_elem_of_fmap.
  reflexivity.
Qed.

Lemma findIndex_Some {A} (P : A → Prop) `{∀ x, Decision (P x)} l i :
  findIndex P l = Some i ↔
  ∃ x, l !! i = Some x ∧ P x ∧ ∀ j y, l !! j = Some y → j < i → ¬ P y.
Proof.
  unfold findIndex. split.
  - destruct (list_find P l) as [[j x]|] eqn:E; simpl; [|done].
    intros [= ->]. exists x. by apply list_find_Some in E.
  - intros (x & Hx). apply (list_find_Some P) in Hx. by rewrite Hx.
Qed.

Lemma findIndex_None {A} (P : A → Prop) `{∀ x, Decision (P x)} l :
  findIndex P l = None ↔ ∀ x, x ∈ l → ¬ P x.
Proof.
  unfold findIndex. rewrite fmap_None, list_find_None, Forall_forall. done.
Qed.

Lemma findIndex_fmap_withStatus m l :
  findIndex (λ x, id x = id m) (withStatus <$> l)
  = findIndex (λ x, id x = id m) l.
Proof.
  unfold findIndex. rewrite list_find_fmap.
  rewrite (list_find_ext ((λ x, id x = id m) ∘ withStatus)
             (λ x, id x = id m)) by done.
  by destruct (list_find _ l) as [[i x]|].
Qed.

(** What [getMemories] reads after each call of the service. *)
Lemma getMemories_saveMemory m st :
  getMemories (saveMemory m st) = withStatus m :: getMemories st.
Proof.
  unfold saveMemory. simpl. by rewrite getMemories_normal.
Qed.

Lemma getMemories_updateMemory m st :
  getMemories (updateMemory m st) = replaceById (withStatus m) (getMemories st).
Proof.
  unfold updateMemory, replaceById. rewrite withStatus_id.
  destruct (findIndex _ (getMemories st)) as [i|]; [|done].
  simpl. rewrite list_fmap_insert. by rewrite getMemories_normal.
Qed.

Lemma getMemories_clearMemories st : getMemories (clearMemories st) = [].
Proof. reflexivity. Qed.

Lemma replaceById_fmap_withStatus m l :
  withStatus <$> replaceById m l
  = replaceById (withStatus m) (withStatus <$> l).
Proof.
  unfold replaceById. rewrite withStatus_id, findIndex_fmap_withStatus.
  destruct (findIndex _ l); [|done]. by rewrite list_fmap_insert.
Qed.

Lemma getMemories_runCall st c l :
  getMemories st = withStatus <$> l →
  getMemories (runCall st c) = withStatus <$> specEffect l c.
Proof.
  intros Hl. destruct c as [m|m|]; cbn [runCall specEffect].
  - by rewrite getMemories_saveMemory, Hl.
  - by rewrite getMemories_updateMemory, Hl, replaceById_fmap_withStatus.
  - done.
Qed.

Lemma getMemories_runCalls_gen cs : ∀ st l,
  getMemories st = withStatus <$> l →
  getMemories (runCalls st cs) = withStatus <$> specEffects l cs.
Proof.
  induction cs as [|c cs IH]; intros st l Hl; simpl; [done|].
  apply IH. by apply getMemories_runCall.
Qed.

(** C4, as stated, fails: after [insert] of a record that has no [status],
    [getAll()] does not return the collection with that record prepended; it
    returns the record with [status: 'processed'] filled in. *)
Lemma getAll_not_exact_for_statusless_insert :
  getMemories (runCalls None [Insert legacyRecord])
  ≠ specEffects (getMemories None) [Insert legacyRecord].
Proof. intros H. vm_compute in H. discriminate H. Qed.

(** C4 (amended): for every initial storage and every sequence of
    insert / update-by-id / clear-all calls, [getAll()] afterwards returns the
    collection obtained by applying the effect of each call, in order, to the
    initial collection, read through the rule that a record lacking a status
    counts as processed. Nothing is merged: the last write decides. *)
Theorem getAll_after_calls (st : Storage) (cs : list StorageCall) :
  getMemories (runCalls st cs)
  = withStatus <$> specEffects (getMemories st) cs.
Proof.
  apply getMemories_runCalls_gen. by rewrite getMemories_normal.
Qed.

Lemma specEffect_statusful l c :
  withStatus <$> l = l → callHasStatus c →
  withStatus <$> specEffect l c = specEffect l c.
Proof.
  intros Hl Hc. destruct c as [m|m|]; cbn [specEffect callHasStatus] in *;
    [| |done].
  - destruct (status m) as [s|] eqn:E; [|done].
    by rewrite fmap_cons, (withStatus_explicit m s), Hl.
  - destruct (status m) as [s|] eqn:E; [|done].
    rewrite replaceById_fmap_withStatus, Hl.
    by rewrite (withStatus_explicit m s).
Qed.

(** When every record handed to the service carries a status, the reading
    rule changes nothing and the equality is exact. *)
Lemma getAll_after_statusful_calls (st : Storage) (cs : list StorageCall) :
  Forall callHasStatus cs →
  getMemories (runCalls st cs) = specEffects (getMemories st) cs.
Proof.
  intros Hcs.
  rewrite (getMemories_runCalls_gen cs st (getMemories st))
    by by rewrite getMemories_normal.
  assert (∀ l, withStatus <$> l = l →
               withStatus <$> specEffects l cs = specEffects l cs) as Hgen.
  { induction Hcs as [|c cs Hc _ IH]; intros l Hl; simpl; [done|].
    apply IH. by apply specEffect_statusful. }
  apply Hgen, getMemories_normal.
Qed.

(** C10: every record [getMemories] returns has a status. A stored record
    without one comes back with ['processed'] and otherwise as stored; a
    record stored with a status comes back as stored. *)
Theorem getMemories_status_defined (st : Storage) :
  (∀ m, m ∈ getMemories st → ∃ s, status m = Some s) ∧
  (∀ parsed, st = Some (Json parsed) →
     length (getMemories st) = length parsed ∧
     ∀ i x, parsed !! i = Some x →
       ∃ y, getMemories st !! i = Some y
            ∧ id y = id x ∧ rawContent y = rawContent x
            ∧ processedContent y = processedContent x
            ∧ timestamp y = timestamp x ∧ tags y = tags x
            ∧ audioData y = audioData x ∧ mimeType y = mimeType x
            ∧ (status x = None → status y = Some processed)
            ∧ (∀ s, status x = Some s → y = x)).
Proof.
  split.
  - intros m Hm. apply getMemories_status in Hm. eauto.
  - intros parsed ->. simpl. split; [by rewrite length_fmap|].
    intros i x Hx. exists (withStatus x).
    rewrite list_lookup_fmap, Hx. simpl.
    repeat split; try done.
    + by intros ->.
    + intros s Hs. by apply withStatus_explicit with s.
Qed.

Lemma getMemories_status_defined_witness :
  (∃ s, status (withStatus legacyRecord) = Some s) ∧
  ∃ y, getMemories (Some (Json [legacyRecord])) !! 0 = Some y
       ∧ status y = Some processed.
Proof.
  destruct (getMemories_status_defined (Some (Json [legacyRecord])))
    as [H1 H2].
  split.
  - apply H1. simpl. apply list_elem_of_here.
  - destruct (H2 [legacyRecord] eq_refl) as [_ H3].
    destruct (H3 0 legacyRecord eq_refl) as (y & Hy & _ & _ & _ & _ & _ & _ & _ & Hs & _).
    exists y. split; [exact Hy|]. apply Hs. reflexivity.
Defined.

(** C9: [updateMemory m] leaves the storage untouched when no stored record
    has the id of [m]. Otherwise the first record with that id (the only one
    when ids are unique) is replaced by [m] as a whole, the collection keeps
    its length, and every other position, hence every record with another
    id, reads as before. *)
Theorem updateMemory_replaces_by_id (m : Memory) (st : Storage) :
  ((∀ x, x ∈ getMemories st → id x ≠ id m) → updateMemory m st = st) ∧
  (∀ i x,
     getMemories st !! i = Some x → id x = id m →
     (∀ j y, getMemories st !! j = Some y → j < i → id y ≠ id m) →
     ∃ stored,
       updateMemory m st = Some (Json stored)
       ∧ stored !! i = Some m
       ∧ getMemories (updateMemory m st) !! i = Some (withStatus m)
       ∧ length (getMemories (updateMemory m st)) = length (getMemories st)
       ∧ (∀ j, j ≠ i →
            getMemories (updateMemory m st) !! j = getMemories st !! j)
       ∧ (∀ j y, getMemories st !! j = Some y → id y ≠ id m →
            getMemories (updateMemory m st) !! j = Some y)) ∧
  (UniqueIds st →
   ∀ i j x y, getMemories st !! i = Some x → getMemories st !! j = Some y →
              id x = id m → id y = id m → i = j).
Proof.
  split; [|split].
  - intros Habs. unfold updateMemory.
    assert (findIndex (λ x, id x = id m) (getMemories st) = None) as ->; [|done].
    apply findIndex_None. intros x Hx. by apply Habs.
  - intros i x Hi Hid Hfirst.
    assert (findIndex (λ x, id x = id m) (getMemories st) = Some i) as Hfind.
    { apply findIndex_Some. exists x. split; [done|]. split; [done|].
      intros j y Hy Hlt. by apply (Hfirst j). }
    assert (i < length (getMemories st)) as Hlen by by eapply lookup_lt_Some.
    exists (<[i := m]> (getMemories st)).
    assert (updateMemory m st = Some (Json (<[i := m]> (getMemories st)))) as Hupd.
    { unfold updateMemory. by rewrite Hfind. }
    rewrite Hupd. simpl. rewrite list_fmap_insert, getMemories_normal.
    repeat split.
    + by apply list_lookup_insert_eq.
    + by apply list_lookup_insert_eq.
    + by rewrite length_insert.
    + intros j Hj. by apply list_lookup_insert_ne.
    + intros j y Hy Hne. rewrite list_lookup_insert_ne; [done|].
      intros ->. rewrite Hi in Hy. congruence.
  - intros Huniq i j x y Hi Hj Hx Hy.
    eapply (NoDup_lookup _ i j (id m) Huniq).
    + by rewrite list_lookup_fmap, Hi; simpl; rewrite Hx.
    + by rewrite list_lookup_fmap, Hj; simpl; rewrite Hy.
Qed.

(** ** The loop of [handleBatchProcess] *)

Section Batch.
Context (remote : Remote).

Lemma outcomes_length c pend ps e :
  outcomes remote c pend = (ps, e) → length ps ≤ length pend.
Proof.
  revert c ps e. induction pend as [|m rest IH]; intros c ps e; simpl.
  - intros [= <- <-]. done.
  - destruct (extractionOutcome remote c m) as [r|x].
    + destruct (outcomes remote (S c) rest) as [ps' e'] eqn:E.
      intros [= <- <-]. simpl. apply IH in E. lia.
    + intros [= <- <-]. simpl. lia.
Qed.

(** [extractionOutcome] is what [analyzeInput] does on the payload of a
    memory, and the call records its request. *)
Lemma analyzeInput_outcome mem w :
  (analyzeInput remote (payloadOf mem) (timestamp mem) w).1
  = extractionOutcome remote (length (requests w)) mem
  ∧ requests (analyzeInput remote (payloadOf mem) (timestamp mem) w).2
    = requests w ++ [requestOf mem].
Proof.
  unfold analyzeInput, generateContent, extractionOutcome.
  by destruct (extractionResponse remote (length (requests w)) (payloadOf mem)
                 (timestamp mem)).
Qed.

(** [updateMemory] leaves a stored text that does not parse as it is. *)
Lemma loadErrors_updateMemory m st :
  loadErrors (updateMemory m st) = loadErrors st.
Proof.
  unfold updateMemory.
  destruct st as [[|l]|]; [done| |done].
  by destruct (findIndex _ _).
Qed.

(** The loop, as one equation: the storage receives the updates of the
    records it got through, one request is recorded per record visited,
    each update logs what its reading of the storage logs, and nothing else
    changes. *)
Lemma for_of_reconcile pend : ∀ w,
  for_of pend (reconcile remote) w =
  let '(ps, e) := outcomes remote (length (requests w)) pend in
  (match e with None => Ok tt | Some x => Throw x end,
   mkWorld (persistAll (localStorage w) ps) (alerts w)
     (consoleErrors w
      ++ concat (replicate (length ps) (loadErrors (localStorage w))))
     (requests w
      ++ (requestOf <$>
          take (length ps + match e with None => 0 | Some _ => 1 end) pend))
     (ui w)).
Proof.
  induction pend as [|m rest IH]; intros [st al ce rq u].
  - simpl. by rewrite !app_nil_r.
  - cbn [for_of outcomes]. unfold mbind, Eff_bind at 1.
    unfold reconcile, analyzeInput, generateContent, extractionOutcome.
    unfold mbind, Eff_bind at 1. cbn [requests localStorage alerts consoleErrors ui].
    destruct (extractionResponse remote (length rq) (payloadOf m) (timestamp m))
      as [| | |r]; cbn.
    + by rewrite app_nil_r.
    + by rewrite app_nil_r.
    + by rewrite app_nil_r.
    + rewrite IH. cbn [requests localStorage alerts consoleErrors ui].
      rewrite length_app. cbn [length]. rewrite Nat.add_1_r.
      rewrite loadErrors_updateMemory.
      destruct (outcomes remote (S (length rq)) rest) as [ps e].
      cbn. by rewrite <- !app_assoc.
Qed.

Lemma outcomes_lookup pend : ∀ c ps e,
  outcomes remote c pend = (ps, e) →
  ∀ j m r, ps !! j = Some (m, r) →
           pend !! j = Some m ∧ extractionOutcome remote (c + j) m = Ok r.
Proof.
  induction pend as [|m0 rest IH]; intros c ps e; simpl.
  - intros [= <- <-] j m r Hj. by rewrite lookup_nil in Hj.
  - destruct (extractionOutcome remote c m0) as [r0|x] eqn:E0.
    + destruct (outcomes remote (S c) rest) as [ps' e'] eqn:E.
      intros [= <- <-] j m r Hj. destruct j as [|j]; simpl in *.
      * injection Hj as <- <-. by rewrite Nat.add_0_r.
      * destruct (IH _ _ _ E j m r Hj) as [H1 H2]. split; [done|].
        by replace (c + S j) with (S c + j) by lia.
    + intros [= <- <-] j m r Hj. by rewrite lookup_nil in Hj.
Qed.

Lemma outcomes_stop pend : ∀ c ps x,
  outcomes remote c pend = (ps, Some x) →
  ∃ m, pend !! length ps = Some m
       ∧ extractionOutcome remote (c + length ps) m = Throw x.
Proof.
  induction pend as [|m0 rest IH]; intros c ps x; simpl; [done|].
  destruct (extractionOutcome remote c m0) as [r0|x0] eqn:E0.
  - destruct (outcomes remote (S c) rest) as [ps' e'] eqn:E.
    intros [= <- ->]. destruct (IH _ _ _ E) as (m & H1 & H2).
    exists m. simpl. split; [done|].
    by replace (c + S (length ps')) with (S c + length ps') by lia.
  - intros [= <- <-]. exists m0. simpl. by rewrite Nat.add_0_r.
Qed.

Lemma outcomes_complete pend : ∀ c ps,
  outcomes remote c pend = (ps, None) → length ps = length pend.
Proof.
  induction pend as [|m0 rest IH]; intros c ps; simpl.
  - by intros [= <-].
  - destruct (extractionOutcome remote c m0) as [r0|x0]; [|done].
    destruct (outcomes remote (S c) rest) as [ps' e'] eqn:E.
    intros [= <- ->]. simpl. f_equal. by eapply IH.
Qed.

Lemma outcomes_fst pend c ps e :
  outcomes remote c pend = (ps, e) → ps.*1 = take (length ps) pend.
Proof.
  intros Ho. apply list_eq. intros j.
  rewrite list_lookup_fmap.
  destruct (ps !! j) as [[m r]|] eqn:Ej; simpl.
  - destruct (outcomes_lookup _ _ _ _ Ho j m r Ej) as [Hp _].
    rewrite lookup_take_lt; [done|]. by eapply lookup_lt_Some.
  - symmetry. apply lookup_ge_None. apply lookup_ge_None in Ej.
    rewrite length_take. lia.
Qed.
End Batch.

(** ** Updating unique ids *)

Lemma same_id_same_record (l : list Memory) x y :
  NoDup (id <$> l) → x ∈ l → y ∈ l → id x = id y → x = y.
Proof.
  intros Hnd (i & Hi)%list_elem_of_lookup (j & Hj)%list_elem_of_lookup Hid.
  assert (i = j) as ->.
  { eapply (NoDup_lookup _ i j (id x) Hnd).
    - by rewrite list_lookup_fmap, Hi.
    - by rewrite list_lookup_fmap, Hj; simpl; rewrite Hid. }
  congruence.
Qed.

Lemma replaceById_unique m (l : list Memory) :
  NoDup (id <$> l) →
  replaceById m l = (λ x, if decide (id x = id m) then m else x) <$> l.
Proof.
  intros Hnd. unfold replaceById.
  destruct (findIndex _ l) as [i|] eqn:E.
  - apply findIndex_Some in E as (x & Hi & Hx & _).
    apply list_eq. intros j. rewrite list_lookup_fmap.
    destruct (decide (j = i)) as [->|Hne].
    + rewrite list_lookup_insert_eq by by eapply lookup_lt_Some.
      rewrite Hi. simpl. by rewrite decide_True.
    + rewrite list_lookup_insert_ne by done.
      destruct (l !! j) as [y|] eqn:Hj; simpl; [|done].
      rewrite decide_False; [done|]. intros Hy. apply Hne.
      eapply (NoDup_lookup _ j i (id m) Hnd).
      * by rewrite list_lookup_fmap, Hj; simpl; rewrite Hy.
      * by rewrite list_lookup_fmap, Hi; simpl; rewrite Hx.
  - pose proof (proj1 (findIndex_None _ l) E) as Habs.
    apply list_eq. intros j. rewrite list_lookup_fmap.
    destruct (l !! j) as [y|] eqn:Hj; simpl; [|done].
    rewrite decide_False; [done|].
    apply Habs. by eapply list_elem_of_lookup_2.
Qed.

(** [replaceById] touches one position at most, and only a record with the
    id it looks for. *)
Lemma replaceById_lookup_ne m (l : list Memory) i x :
  l !! i = Some x → id x ≠ id m → replaceById m l !! i = Some x.
Proof.
  intros Hi Hne. unfold replaceById.
  destruct (findIndex _ l) as [j|] eqn:E; [|done].
  apply findIndex_Some in E as (y & Hj & Hy & _).
  rewrite list_lookup_insert_ne; [done|]. intros ->. congruence.
Qed.

Lemma replaceById_length m (l : list Memory) :
  length (replaceById m l) = length l.
Proof.
  unfold replaceById. destruct (findIndex _ l); [|done].
  by rewrite length_insert.
Qed.

Lemma updatedMem_withStatus m r : withStatus (updatedMem m r) = updatedMem m r.
Proof. reflexivity. Qed.

Lemma applyResults_id rs x : id (applyResults rs x) = id x.
Proof. unfold applyResults. by destruct (rs !! id x). Qed.

Lemma applyResults_empty x : applyResults ∅ x = x.
Proof. unfold applyResults. by rewrite lookup_empty. Qed.

Lemma resultsById_cons m r ps :
  resultsById ((m, r) :: ps) = <[id m := r]> (resultsById ps).
Proof. reflexivity. Qed.

Lemma pair_ids (ps : list (Memory * Extraction)) :
  (λ p : Memory * Extraction, id p.1) <$> ps = id <$> ps.*1.
Proof. by rewrite <- list_fmap_compose. Qed.

Lemma resultsById_None ps (k : string) :
  k ∉ (λ p : Memory * Extraction, id p.1) <$> ps → resultsById ps !! k = None.
Proof.
  intros Hk. apply not_elem_of_list_to_map_1.
  by rewrite <- list_fmap_compose.
Qed.

Lemma resultsById_Some ps m r :
  NoDup ((λ p : Memory * Extraction, id p.1) <$> ps) →
  (m, r) ∈ ps → resultsById ps !! id m = Some r.
Proof.
  intros Hnd Hin. apply elem_of_list_to_map_1.
  - by rewrite <- list_fmap_compose.
  - apply list_elem_of_fmap. by exists (m, r).
Qed.

(** The stored collection after the updates of a run: every record whose id
    got an extraction result carries it, every other record is as before. *)
Lemma getMemories_persistAll ps : ∀ st,
  UniqueIds st →
  NoDup ((λ p : Memory * Extraction, id p.1) <$> ps) →
  (∀ p, p ∈ ps → p.1 ∈ getMemories st) →
  getMemories (persistAll st ps)
  = applyResults (resultsById ps) <$> getMemories st.
Proof.
  induction ps as [|[m r] ps IH]; intros st Hu Hnd Hin.
  - simpl. apply list_eq. intros j. rewrite list_lookup_fmap.
    destruct (getMemories st !! j); simpl; [|done].
    by rewrite applyResults_empty.
  - cbn [persistAll foldl fst snd].
    change (foldl _ ?s ps) with (persistAll s ps).
    set (st1 := updateMemory (updatedMem m r) st).
    assert (getMemories st1
            = (λ x, if decide (id x = id m) then updatedMem m r else x)
                <$> getMemories st) as Hst1.
    { unfold st1. rewrite getMemories_updateMemory, updatedMem_withStatus.
      by rewrite replaceById_unique. }
    apply NoDup_cons in Hnd as [Hm Hnd]. simpl in Hm.
    assert (id <$> getMemories st1 = id <$> getMemories st) as Hids.
    { rewrite Hst1, <- list_fmap_compose. apply list_fmap_ext.
      intros _ x _. simpl. by destruct (decide _). }
    rewrite IH; [| by unfold UniqueIds; rewrite Hids | done |].
    + rewrite Hst1, <- list_fmap_compose. apply list_fmap_ext.
      intros _ x Hx%list_elem_of_lookup_2. simpl.
      rewrite resultsById_cons. unfold applyResults at 2.
      destruct (decide (id x = id m)) as [Hid|Hid].
      * rewrite Hid, lookup_insert_eq.
        assert (x = m) as ->.
        { eapply same_id_same_record; [exact Hu|done| |done].
          apply (Hin (m, r)). apply list_elem_of_here. }
        unfold applyResults. simpl. by rewrite resultsById_None.
      * rewrite lookup_insert_ne by done. reflexivity.
    + intros [m' r'] Hp. simpl. rewrite Hst1.
      apply list_elem_of_fmap. exists m'. split.
      * rewrite decide_False; [done|]. intros Hid. apply Hm.
        apply list_elem_of_fmap. exists (m', r'). by split.
      * apply (Hin (m', r')). by apply list_elem_of_further.
Qed.

(** Whatever the storage holds, the updates of a run leave alone every
    stored record whose id is not the id of an updated record, and keep the
    number of stored records. *)
Lemma persistAll_frame ps : ∀ st i x,
  getMemories st !! i = Some x →
  id x ∉ (λ p : Memory * Extraction, id p.1) <$> ps →
  getMemories (persistAll st ps) !! i = Some x.
Proof.
  induction ps as [|[m r] ps IH]; intros st i x Hi Hx; [done|].
  cbn [persistAll foldl fst snd].
  change (foldl _ ?s ps) with (persistAll s ps).
  rewrite fmap_cons in Hx. apply not_elem_of_cons in Hx as [Hm Hps].
  apply IH; [|done].
  rewrite getMemories_updateMemory, updatedMem_withStatus.
  by apply replaceById_lookup_ne.
Qed.

Lemma persistAll_length ps : ∀ st,
  length (getMemories (persistAll st ps)) = length (getMemories st).
Proof.
  induction ps as [|[m r] ps IH]; intros st; [done|].
  cbn [persistAll foldl fst snd].
  change (foldl _ ?s ps) with (persistAll s ps).
  by rewrite IH, getMemories_updateMemory, replaceById_length.
Qed.

(** ** [refreshMemories] *)

Lemma insertByTimestamp_perm x l : insertByTimestamp x l ≡ₚ x :: l.
Proof.
  induction l as [|y r IH]; simpl; [done|].
  destruct (timestamp x <? timestamp y)%Z; [|done].
  rewrite IH. apply Permutation_swap.
Qed.

Lemma sortNewestFirst_perm l : sortNewestFirst l ≡ₚ l.
Proof.
  induction l as [|x l IH]; simpl; [done|].
  rewrite insertByTimestamp_perm. by rewrite IH.
Qed.

Lemma insertByTimestamp_sorted x l :
  Sorted (λ a b, (timestamp b <= timestamp a)%Z) l →
  Sorted (λ a b, (timestamp b <= timestamp a)%Z) (insertByTimestamp x l).
Proof.
  induction 1 as [|y r Hs IH Hhd]; simpl.
  - by repeat constructor.
  - destruct (timestamp x <? timestamp y)%Z eqn:E.
    + constructor; [done|].
      destruct r as [|z r]; simpl in *.
      * constructor. lia.
      * destruct (timestamp x <? timestamp z)%Z; constructor.
        -- by inversion Hhd.
        -- lia.
    + constructor; [by constructor|]. constructor. lia.
Qed.

Lemma sortNewestFirst_sorted l :
  Sorted (λ a b, (timestamp b <= timestamp a)%Z) (sortNewestFirst l).
Proof.
  induction l as [|x l IH]; simpl; [constructor|].
  by apply insertByTimestamp_sorted.
Qed.

Lemma refreshMemories_Synced w : Synced (refreshMemories w).2.
Proof. destruct w. unfold Synced. simpl. apply sortNewestFirst_perm. Qed.

(** ** [handleBatchProcess] as a whole *)

Section Reconciliation.
Context (remote : Remote).

(** One run: the handler itself never throws; the storage receives the
    updates of the records the loop got through; one request per record
    visited; one notice exactly when the loop was stopped by an exception;
    the React state is re-read only after a complete loop. *)
Lemma handleBatchProcess_run w ps e :
  outcomes remote (length (requests w))
    (pendingMemories (ui_memories (ui w))) = (ps, e) →
  (handleBatchProcess remote w).1 = Ok tt
  ∧ localStorage (handleBatchProcess remote w).2
    = persistAll (localStorage w) ps
  ∧ requests (handleBatchProcess remote w).2
    = requests w
      ++ (requestOf <$>
          take (length ps + match e with None => 0 | Some _ => 1 end)
            (pendingMemories (ui_memories (ui w))))
  ∧ alerts (handleBatchProcess remote w).2
    = alerts w ++ match e with None => [] | Some _ => [batchFailureNotice] end
  ∧ ui_memories (ui (handleBatchProcess remote w).2)
    = match e with
      | Some _ => ui_memories (ui w)
      | None =>
          if decide (length (pendingMemories (ui_memories (ui w))) = 0)
          then ui_memories (ui w)
          else sortNewestFirst (getMemories (persistAll (localStorage w) ps))
      end.
Proof.
  destruct w as [st al ce rq u].
  cbn [requests localStorage alerts consoleErrors ui].
  intros Ho. unfold handleBatchProcess.
  cbn [requests localStorage alerts consoleErrors ui].
  destruct (decide (length (pendingMemories (ui_memories u)) = 0))
    as [Hz|Hnz].
  - apply nil_length_inv in Hz. rewrite Hz in Ho |- *. simpl in Ho.
    injection Ho as <- <-. simpl. by rewrite !app_nil_r.
  - unfold try_finally, try_catch, mbind, Eff_bind,
      setIsProcessingPending, setUI, modify.
    rewrite for_of_reconcile.
    cbn [requests localStorage alerts consoleErrors ui ui_memories].
    rewrite Ho.
    destruct e as [x|]; cbn; [done|].
    unfold refreshMemories, readStorage, setMemories, setUI, modify,
      mbind, Eff_bind. cbn. by rewrite app_nil_r.
Qed.

Lemma outcomes_reaches pend c ps e j x :
  outcomes remote c pend = (ps, e) →
  pend !! j = Some x →
  (∀ j' m, j' ≤ j → pend !! j' = Some m →
           is_Some (extractionOf remote (c + j') m)) →
  ∃ r, ps !! j = Some (x, r) ∧ extractionOf remote (c + j) x = Some r.
Proof.
  intros Ho Hx Hok.
  destruct (decide (j < length ps)) as [Hlt|Hge].
  - destruct (lookup_lt_is_Some_2 ps j Hlt) as [[m r] Hj].
    destruct (outcomes_lookup _ _ _ _ _ Ho j m r Hj) as [Hm Hr].
    assert (m = x) as -> by congruence.
    exists r. split; [done|]. unfold extractionOf. by rewrite Hr.
  - exfalso. destruct e as [exn|].
    + destruct (outcomes_stop _ _ _ _ _ Ho) as (m & Hm & Hthrow).
      destruct (Hok (length ps) m) as [r Hr]; [lia|done|].
      unfold extractionOf in Hr. by rewrite Hthrow in Hr.
    + apply outcomes_complete in Ho. apply lookup_lt_Some in Hx. lia.
Qed.

Lemma pending_facts w :
  Synced w → UniqueIds (localStorage w) →
  NoDup (id <$> pendingMemories (ui_memories (ui w)))
  ∧ ∀ m, m ∈ pendingMemories (ui_memories (ui w)) →
         status m = Some pending ∧ m ∈ getMemories (localStorage w).
Proof.
  intros Hs Hu. unfold Synced, UniqueIds in *. split.
  - apply sublist_NoDup with (id <$> ui_memories (ui w)).
    + by rewrite Hs.
    + apply fmap_sublist, sublist_filter.
  - intros m [Hp Hin]%list_elem_of_filter. split; [done|].
    by rewrite <- Hs.
Qed.

(** The collection read from the storage after a run, position by
    position. *)
Lemma batch_positions w ps e :
  Synced w → UniqueIds (localStorage w) →
  outcomes remote (length (requests w))
    (pendingMemories (ui_memories (ui w))) = (ps, e) →
  let l := getMemories (localStorage w) in
  let l' := getMemories (localStorage (handleBatchProcess remote w).2) in
  l' = applyResults (resultsById ps) <$> l
  ∧ (∀ j m r, ps !! j = Some (m, r) →
       ∃ i, l !! i = Some m ∧ l' !! i = Some (updatedMem m r))
  ∧ (∀ j m, pendingMemories (ui_memories (ui w)) !! j = Some m →
       length ps ≤ j → ∃ i, l !! i = Some m ∧ l' !! i = Some m)
  ∧ (∀ i x, l !! i = Some x → status x ≠ Some pending → l' !! i = Some x).
Proof.
  intros Hs Hu Ho. cbv zeta.
  destruct (pending_facts w Hs Hu) as [Hnd Hpend].
  pose proof (outcomes_fst _ _ _ _ _ Ho) as Hfst.
  assert (NoDup ((λ p : Memory * Extraction, id p.1) <$> ps)) as Hndps.
  { rewrite pair_ids, Hfst.
    eapply sublist_NoDup; [exact Hnd|]. apply fmap_sublist, sublist_take. }
  assert (∀ p, p ∈ ps → p.1 ∈ pendingMemories (ui_memories (ui w))) as Hsub.
  { intros p Hp.
    assert (p.1 ∈ take (length ps) (pendingMemories (ui_memories (ui w))))
      as (i & Hi & _)%elem_of_take.
    { rewrite <- Hfst. apply list_elem_of_fmap. by exists p. }
    by eapply list_elem_of_lookup_2. }
  assert (getMemories (localStorage (handleBatchProcess remote w).2)
          = applyResults (resultsById ps) <$> getMemories (localStorage w))
    as Hl'.
  { destruct (handleBatchProcess_run w ps e Ho) as (_ & -> & _).
    apply getMemories_persistAll; [done|done|].
    intros p Hp. by apply Hpend, Hsub. }
  split; [done|]. split; [|split].
  - intros j m r Hj.
    assert ((m, r) ∈ ps) as Hin by by eapply list_elem_of_lookup_2.
    destruct (Hpend m (Hsub _ Hin)) as [_ (i & Hi)%list_elem_of_lookup].
    exists i. split; [done|].
    rewrite Hl', list_lookup_fmap, Hi. simpl. unfold applyResults.
    by rewrite (resultsById_Some ps m r).
  - intros j m Hj Hge.
    assert (m ∈ pendingMemories (ui_memories (ui w))) as Hin
      by by eapply list_elem_of_lookup_2.
    destruct (Hpend m Hin) as [_ (i & Hi)%list_elem_of_lookup].
    exists i. split; [done|].
    rewrite Hl', list_lookup_fmap, Hi. simpl. unfold applyResults.
    rewrite resultsById_None; [done|].
    rewrite pair_ids, Hfst.
    intros (m' & Hid & (j' & Hj' & Hlt)%elem_of_take)%list_elem_of_fmap.
    assert (j = j'); [|lia].
    eapply (NoDup_lookup _ j j' (id m) Hnd).
    + by rewrite list_lookup_fmap, Hj.
    + rewrite list_lookup_fmap, Hj'. simpl. by rewrite Hid.
  - intros i x Hi Hst.
    rewrite Hl', list_lookup_fmap, Hi. simpl. unfold applyResults.
    rewrite resultsById_None; [done|].
    rewrite pair_ids, Hfst.
    intros (m' & Hid & Hm'%elem_of_take)%list_elem_of_fmap.
    destruct Hm' as (j' & Hj' & _).
    assert (m' ∈ pendingMemories (ui_memories (ui w))) as Hin
      by by eapply list_elem_of_lookup_2.
    destruct (Hpend m' Hin) as [Hp Hin'].
    assert (x = m') as ->; [|done].
    eapply same_id_same_record; [exact Hu| |done|done].
    by eapply list_elem_of_lookup_2.
Qed.
End Reconciliation.

(** ** Batch reconciliation: the claims *)

Section ReconciliationClaims.
Context (remote : Remote).

Lemma outcomes_first_failure pend c ps e k mk :
  outcomes remote c pend = (ps, e) →
  pend !! k = Some mk →
  extractionOf remote (c + k) mk = None →
  (∀ j m, j < k → pend !! j = Some m →
          is_Some (extractionOf remote (c + j) m)) →
  length ps = k ∧ ∃ x, e = Some x.
Proof.
  intros Ho Hk Hfail Hsucc.
  assert (¬ k < length ps) as Hub.
  { intros Hlt. destruct (lookup_lt_is_Some_2 ps k Hlt) as [[m r] Hj].
    destruct (outcomes_lookup _ _ _ _ _ Ho k m r Hj) as [Hm Hr].
    assert (m = mk) as -> by congruence.
    unfold extractionOf in Hfail. by rewrite Hr in Hfail. }
  destruct e as [x|].
  - split; [|by exists x].
    destruct (outcomes_stop _ _ _ _ _ Ho) as (m & Hm & Hthrow).
    destruct (decide (length ps < k)) as [Hlt|]; [|lia].
    destruct (Hsucc _ _ Hlt Hm) as [r Hr].
    unfold extractionOf in Hr. by rewrite Hthrow in Hr.
  - apply outcomes_complete in Ho. apply lookup_lt_Some in Hk. lia.
Qed.

(** C1: the React state lists the stored records and ids are unique; the
    pending records up to the [k]-th (counted from 1, in collection order)
    carry timestamps in the [Date] range; the extraction call succeeds for
    the pending records before the [k]-th and fails for the [k]-th. Then,
    after the run: each of the first [k-1] pending records is stored with
    status processed and the content and tags of its extraction result;
    each pending record from the [k]-th on is still pending and stored as
    it was; exactly one failure notice was raised. *)
Theorem batch_abort_at_kth (w : World) (k : nat) (mk : Memory) :
  Synced w → UniqueIds (localStorage w) →
  DatesInRange (take k (pendingMemories (ui_memories (ui w)))) →
  1 ≤ k →
  pendingMemories (ui_memories (ui w)) !! (k - 1) = Some mk →
  extractionOf remote (length (requests w) + (k - 1)) mk = None →
  (∀ j m, j < k - 1 →
     pendingMemories (ui_memories (ui w)) !! j = Some m →
     is_Some (extractionOf remote (length (requests w) + j) m)) →
  (∀ j m, j < k - 1 →
     pendingMemories (ui_memories (ui w)) !! j = Some m →
     ∃ r i y,
       extractionOf remote (length (requests w) + j) m = Some r
       ∧ getMemories (localStorage w) !! i = Some m
       ∧ getMemories (localStorage (handleBatchProcess remote w).2) !! i
         = Some y
       ∧ y = updatedMem m r
       ∧ status y = Some processed
       ∧ processedContent y = ex_processedContent r
       ∧ tags y = ex_tags r)
  ∧ (∀ j m, k - 1 ≤ j →
       pendingMemories (ui_memories (ui w)) !! j = Some m →
       status m = Some pending
       ∧ ∃ i, getMemories (localStorage w) !! i = Some m
              ∧ getMemories (localStorage (handleBatchProcess remote w).2)
                  !! i = Some m)
  ∧ alerts (handleBatchProcess remote w).2
    = alerts w ++ [batchFailureNotice].
Proof.
  intros Hs Hu _ Hk Hmk Hfail Hsucc.
  destruct (outcomes remote (length (requests w))
              (pendingMemories (ui_memories (ui w)))) as [ps e] eqn:Ho.
  destruct (outcomes_first_failure _ _ _ _ _ _ Ho Hmk Hfail Hsucc)
    as [Hlen [x ->]].
  destruct (batch_positions remote w ps _ Hs Hu Ho) as (_ & Hdone & Hrest & _).
  split; [|split].
  - intros j m Hj Hm.
    destruct (outcomes_reaches remote _ _ _ _ j m Ho Hm) as (r & Hps & Hr).
    { intros j' m' Hle Hm'. apply Hsucc; [lia|done]. }
    destruct (Hdone j m r Hps) as (i & Hi & Hi').
    exists r, i, (updatedMem m r). done.
  - intros j m Hj Hm. split.
    + apply list_elem_of_lookup_2 in Hm.
      by apply list_elem_of_filter in Hm as [? _].
    + apply (Hrest j m Hm). lia.
  - by destruct (handleBatchProcess_run remote w ps _ Ho) as (_ & _ & _ & -> & _).
Qed.

(** One run, as the collection handed to the workflow shows it (ids are
    unique in that collection). The run selects the records of the
    collection whose status is pending and no other; it issues extraction
    requests for a prefix of them, one per record, and updates exactly the
    records it got a result for, each once. A stored record whose id is not
    the id of a selected record reads afterwards as before, at its
    position; so does every stored record with the id of a record the
    collection shows as processed. The number of stored records is kept.
    With no pending record the run changes nothing at all. The statuses are
    those of the collection, which after an aborted run are no longer those
    of the storage. *)
Theorem batch_touches_only_pending (w : World) :
  NoDup (id <$> ui_memories (ui w)) →
  (∀ m, m ∈ pendingMemories (ui_memories (ui w)) ↔
        m ∈ ui_memories (ui w) ∧ status m = Some pending)
  ∧ (∃ n, n ≤ length (pendingMemories (ui_memories (ui w)))
          ∧ requests (handleBatchProcess remote w).2
            = requests w
              ++ (requestOf <$> take n (pendingMemories (ui_memories (ui w)))))
  ∧ (∃ ps, localStorage (handleBatchProcess remote w).2
           = persistAll (localStorage w) ps
           ∧ ps.*1 = take (length ps) (pendingMemories (ui_memories (ui w)))
           ∧ NoDup ps.*1)
  ∧ (∀ i x, getMemories (localStorage w) !! i = Some x →
            id x ∉ id <$> pendingMemories (ui_memories (ui w)) →
            getMemories (localStorage (handleBatchProcess remote w).2) !! i
            = Some x)
  ∧ (∀ m i x, m ∈ ui_memories (ui w) → status m = Some processed →
              getMemories (localStorage w) !! i = Some x → id x = id m →
              getMemories (localStorage (handleBatchProcess remote w).2) !! i
              = Some x)
  ∧ length (getMemories (localStorage (handleBatchProcess remote w).2))
    = length (getMemories (localStorage w))
  ∧ (pendingMemories (ui_memories (ui w)) = [] →
     handleBatchProcess remote w = (Ok tt, w)).
Proof.
  intros Hnd.
  destruct (outcomes remote (length (requests w))
              (pendingMemories (ui_memories (ui w)))) as [ps e] eqn:Ho.
  destruct (handleBatchProcess_run remote w ps e Ho)
    as (_ & Hst & Hrq & _ & _).
  pose proof (outcomes_fst _ _ _ _ _ Ho) as Hfst.
  pose proof (outcomes_length _ _ _ _ _ Ho) as Hlen.
  assert (∀ i x, getMemories (localStorage w) !! i = Some x →
                 id x ∉ id <$> pendingMemories (ui_memories (ui w)) →
                 getMemories (localStorage (handleBatchProcess remote w).2) !! i
                 = Some x) as Hframe.
  { intros i x Hi Hx. rewrite Hst. apply persistAll_frame; [done|].
    rewrite pair_ids, Hfst. intros Hin. apply Hx.
    apply list_elem_of_fmap in Hin as (m & Hm & (j & Hj & _)%elem_of_take).
    apply list_elem_of_fmap. exists m. split; [done|].
    by eapply list_elem_of_lookup_2. }
  split; [|split; [|split; [|split; [|split; [|split]]]]].
  - intros m. unfold pendingMemories. rewrite list_elem_of_filter. tauto.
  - exists (length ps + match e with None => 0 | Some _ => 1 end).
    split; [|done]. destruct e as [x|]; [|lia].
    destruct (outcomes_stop _ _ _ _ _ Ho) as (m & Hm%lookup_lt_Some & _). lia.
  - exists ps. split; [done|]. split; [done|].
    rewrite Hfst. eapply sublist_NoDup; [|apply sublist_take].
    eapply sublist_NoDup; [|apply sublist_filter].
    by eapply NoDup_fmap_1.
  - done.
  - intros m i x Hm Hproc Hi Hid. apply Hframe; [done|].
    intros (m' & Hid' & [Hpend Hm']%list_elem_of_filter)%list_elem_of_fmap.
    assert (m' = m) as ->; [|congruence].
    eapply same_id_same_record; [exact Hnd|done|done|congruence].
  - by rewrite Hst, persistAll_length.
  - intros Hnil. unfold handleBatchProcess. rewrite Hnil. reflexivity.
Qed.

(** Re-running: after a run in which every extraction call succeeded, the
    refreshed React state lists no pending record, and a second run changes
    nothing: no request, no update, no notice. *)
Lemma rerun_after_complete_run (w : World) ps :
  Synced w → UniqueIds (localStorage w) →
  outcomes remote (length (requests w))
    (pendingMemories (ui_memories (ui w))) = (ps, None) →
  pendingMemories (ui_memories (ui (handleBatchProcess remote w).2)) = []
  ∧ handleBatchProcess remote (handleBatchProcess remote w).2
    = (Ok tt, (handleBatchProcess remote w).2).
Proof.
  intros Hs Hu Ho.
  assert (pendingMemories (ui_memories (ui (handleBatchProcess remote w).2))
          = []) as Hnone.
  { destruct (handleBatchProcess_run remote w ps None Ho)
      as (_ & _ & _ & _ & Hui).
    destruct (decide (length (pendingMemories (ui_memories (ui w))) = 0))
      as [Hz|Hnz].
    { rewrite Hui. by apply nil_length_inv. }
    rewrite Hui.
    destruct (batch_positions remote w ps None Hs Hu Ho) as (Hl' & Hdone & _).
    destruct (handleBatchProcess_run remote w ps None Ho) as (_ & Hst & _).
    rewrite <- Hst, Hl'.
    apply elem_of_nil_inv. intros m [Hp Hin]%list_elem_of_filter.
    rewrite sortNewestFirst_perm in Hin.
    apply list_elem_of_fmap in Hin as (x & -> & Hx).
    unfold applyResults in Hp.
    destruct (resultsById ps !! id x) as [r|] eqn:Er; [done|].
    assert (x ∈ pendingMemories (ui_memories (ui w)))
      as (j & Hj)%list_elem_of_lookup.
    { apply list_elem_of_filter. split; [done|].
      unfold Synced in Hs. by rewrite Hs. }
    destruct (lookup_lt_is_Some_2 ps j) as [[m r] Hps].
    { rewrite (outcomes_complete _ _ _ _ Ho). by eapply lookup_lt_Some. }
    destruct (outcomes_lookup _ _ _ _ _ Ho j m r Hps) as [Hm _].
    assert (m = x) as -> by congruence.
    assert (resultsById ps !! id x = Some r); [|congruence].
    apply resultsById_Some; [|by eapply list_elem_of_lookup_2].
    rewrite pair_ids, (outcomes_fst _ _ _ _ _ Ho).
    eapply sublist_NoDup; [|apply fmap_sublist, sublist_take].
    by apply pending_facts. }
  split; [done|].
  unfold handleBatchProcess at 1. by rewrite Hnone.
Qed.

(** C6: a run of the workflow never discards audio: every stored record
    keeps its [audioData], [mimeType], [id], [rawContent] and [timestamp].
    A pending record that carries audio and whose extraction call is
    reached and succeeds (the records up to it carry timestamps in the
    [Date] range) is stored afterwards with exactly those five
    fields as before and with [processedContent], [tags] and [status]
    replaced by the content and tags of the extraction result and by
    processed. *)
Theorem reconciliation_keeps_audio (w : World) :
  Synced w → UniqueIds (localStorage w) →
  (∀ i x, getMemories (localStorage w) !! i = Some x →
     ∃ y, getMemories (localStorage (handleBatchProcess remote w).2) !! i
          = Some y
          ∧ audioData y = audioData x ∧ mimeType y = mimeType x
          ∧ id y = id x ∧ rawContent y = rawContent x
          ∧ timestamp y = timestamp x)
  ∧ (∀ j x a t,
       pendingMemories (ui_memories (ui w)) !! j = Some x →
       audioData x = Some a → mimeType x = Some t →
       DatesInRange (take (S j) (pendingMemories (ui_memories (ui w)))) →
       (∀ j' m, j' ≤ j →
          pendingMemories (ui_memories (ui w)) !! j' = Some m →
          is_Some (extractionOf remote (length (requests w) + j') m)) →
       ∃ r i y,
         extractionOf remote (length (requests w) + j) x = Some r
         ∧ getMemories (localStorage w) !! i = Some x
         ∧ getMemories (localStorage (handleBatchProcess remote w).2) !! i
           = Some y
         ∧ audioData y = Some a ∧ mimeType y = Some t
         ∧ id y = id x ∧ rawContent y = rawContent x
         ∧ timestamp y = timestamp x
         ∧ processedContent y = ex_processedContent r
         ∧ tags y = ex_tags r
         ∧ status y = Some processed).
Proof.
  intros Hs Hu.
  destruct (outcomes remote (length (requests w))
              (pendingMemories (ui_memories (ui w)))) as [ps e] eqn:Ho.
  destruct (batch_positions remote w ps e Hs Hu Ho) as (Hl' & Hdone & _ & _).
  split.
  - intros i x Hi. exists (applyResults (resultsById ps) x).
    rewrite Hl', list_lookup_fmap, Hi. split; [done|].
    unfold applyResults. by destruct (resultsById ps !! id x).
  - intros j x a t Hx Ha Ht _ Hok.
    destruct (outcomes_reaches remote _ _ _ _ j x Ho Hx Hok) as (r & Hps & Hr).
    destruct (Hdone j x r Hps) as (i & Hi & Hi').
    exists r, i, (updatedMem x r). by repeat split.
Qed.

(** [handleTextSubmit] on a text that is not blank: the new record is
    saved, then the React state is refreshed. *)
Lemma handleTextSubmit_run text customDate now newId w :
  trim_is_empty text = false →
  handleTextSubmit text customDate now newId w
  = (Ok tt,
     (refreshMemories
        (setStorage
           (saveMemory
              {| id := newId; rawContent := text; processedContent := text;
                 timestamp := match customDate with
                              | Some d => d
                              | None => now
                              end;
                 tags := ∅; status := Some pending; audioData := None;
                 mimeType := None |}) w).2).2).
Proof.
  intros Hblank. unfold handleTextSubmit. rewrite Hblank.
  by destruct w.
Qed.

(** C2: the text memory "买牛奶" is captured at time [t0] into a storage
    with unique ids that does not hold the new id; [t0] and the stored
    timestamps lie in the [Date] range. The memory is stored first, with
    status pending and [processedContent] "买牛奶". Batch reconciliation
    with an extraction client that answers [milkExtraction] then leaves
    that record with status processed, [processedContent] "购买牛奶" and
    [tags.Object] = ["牛奶"]; no failure notice is raised. *)
Theorem milk_scenario (w : World) (t0 : Z) (newId : string) :
  UniqueIds (localStorage w) →
  newId ∉ id <$> getMemories (localStorage w) →
  inDateRange t0 →
  DatesInRange (getMemories (localStorage w)) →
  (∀ n p d, extractionResponse remote n p d = Body milkExtraction) →
  (∃ m, getMemories (localStorage (handleTextSubmit "买牛奶" None t0 newId w).2)
          !! 0 = Some m
        ∧ id m = newId ∧ timestamp m = t0 ∧ rawContent m = "买牛奶"
        ∧ status m = Some pending ∧ processedContent m = "买牛奶")
  ∧ (∃ m, getMemories
            (localStorage
               (handleBatchProcess remote
                  (handleTextSubmit "买牛奶" None t0 newId w).2).2)
            !! 0 = Some m
          ∧ id m = newId ∧ timestamp m = t0 ∧ rawContent m = "买牛奶"
          ∧ status m = Some processed
          ∧ processedContent m = "购买牛奶"
          ∧ tags m !! "Object" = Some ["牛奶"])
  ∧ alerts (handleBatchProcess remote
              (handleTextSubmit "买牛奶" None t0 newId w).2).2
    = alerts w.
Proof.
  intros Hu Hfresh _ _ Hmilk.
  set (new := {| id := newId; rawContent := "买牛奶";
                 processedContent := "买牛奶"; timestamp := t0; tags := ∅;
                 status := Some pending; audioData := None;
                 mimeType := None |}).
  rewrite (handleTextSubmit_run "买牛奶" None t0 newId w) by reflexivity.
  cbn [snd]. fold new.
  set (w1 := (refreshMemories
                (setStorage (saveMemory new) w).2).2).
  assert (localStorage w1 = saveMemory new (localStorage w)) as Hst1
    by (destruct w; reflexivity).
  assert (alerts w1 = alerts w) as Hal1 by (destruct w; reflexivity).
  assert (getMemories (localStorage w1) = new :: getMemories (localStorage w))
    as Hl1 by (by rewrite Hst1, getMemories_saveMemory).
  assert (Synced w1) as Hs1 by apply refreshMemories_Synced.
  assert (UniqueIds (localStorage w1)) as Hu1.
  { unfold UniqueIds. rewrite Hl1, fmap_cons. by apply NoDup_cons. }
  split; [|split].
  - exists new. by rewrite Hl1.
  - destruct (outcomes remote (length (requests w1))
                (pendingMemories (ui_memories (ui w1)))) as [ps e] eqn:Ho.
    destruct (batch_positions remote w1 ps e Hs1 Hu1 Ho) as (_ & Hdone & _ & _).
    assert (new ∈ pendingMemories (ui_memories (ui w1)))
      as (j & Hj)%list_elem_of_lookup.
    { apply list_elem_of_filter. split; [done|].
      unfold Synced in Hs1. rewrite Hs1, Hl1. apply list_elem_of_here. }
    destruct (outcomes_reaches remote _ _ _ _ j new Ho Hj) as (r & Hps & Hr).
    { intros j' m _ _. unfold extractionOf, extractionOutcome.
      rewrite Hmilk. by eexists. }
    assert (r = milkExtraction) as ->.
    { unfold extractionOf, extractionOutcome in Hr. rewrite Hmilk in Hr.
      congruence. }
    destruct (Hdone j new _ Hps) as (i & Hi & Hi').
    assert (i = 0) as ->.
    { eapply (NoDup_lookup _ i 0 newId Hu1).
      - by rewrite list_lookup_fmap, Hi.
      - by rewrite Hl1. }
    exists (updatedMem new milkExtraction). by repeat split.
  - destruct (outcomes remote (length (requests w1))
                (pendingMemories (ui_memories (ui w1)))) as [ps e] eqn:Ho.
    destruct (handleBatchProcess_run remote w1 ps e Ho)
      as (_ & _ & _ & -> & _).
    destruct e as [x|]; [|by rewrite app_nil_r, Hal1].
    destruct (outcomes_stop _ _ _ _ _ Ho) as (m & _ & Hthrow).
    unfold extractionOutcome in Hthrow. by rewrite Hmilk in Hthrow.
Qed.
End ReconciliationClaims.

(** ** Search and suggestions *)

Section Retrieval.
Context (remote : Remote).

Lemma handleSearch_requests text w :
  requests (handleSearch remote text w).2
  = requests w
    ++ (if trim_is_empty text then []
        else [SearchRequest text (processedMemories (ui_memories (ui w)))]).
Proof.
  unfold handleSearch. destruct (trim_is_empty text).
  - destruct w. simpl. by rewrite app_nil_r.
  - unfold try_finally, try_catch, mbind, Eff_bind, semanticSearch,
      generateContent, setQuery, setIsSearching, setSearchResult,
      console_error, setUI, modify.
    destruct w as [st al ce rq u].
    cbn [requests localStorage alerts consoleErrors ui ui_memories].
    by destruct (searchResponse remote (length rq) text
                   (processedMemories (ui_memories u))).
Qed.

(** C3: a search on a blank query issues no request; any other query
    issues exactly one, and its corpus is the sub-collection of the records
    whose status is processed, in collection order. No pending record is
    in it. *)
Theorem search_corpus_is_processed (text : string) (w : World) :
  requests (handleSearch remote text w).2
  = requests w
    ++ (if trim_is_empty text then []
        else [SearchRequest text
                (filter (λ m, status m = Some processed)
                   (ui_memories (ui w)))])
  ∧ (∀ q corpus,
       SearchRequest q corpus ∈ requests (handleSearch remote text w).2 →
       SearchRequest q corpus ∈ requests w
       ∨ (q = text
          ∧ corpus `sublist_of` ui_memories (ui w)
          ∧ (∀ m, m ∈ corpus ↔
                  m ∈ ui_memories (ui w) ∧ status m = Some processed)
          ∧ (∀ m, status m = Some pending → m ∉ corpus))).
Proof.
  split; [apply handleSearch_requests|].
  intros q corpus. rewrite handleSearch_requests.
  intros [Hold|Hnew]%elem_of_app; [by left|right].
  destruct (trim_is_empty text); [by apply elem_of_nil in Hnew|].
  apply list_elem_of_singleton in Hnew. injection Hnew as -> ->.
  split; [done|]. split; [apply sublist_filter|]. split.
  - intros m. unfold processedMemories. rewrite list_elem_of_filter.
    tauto.
  - intros m Hp [Hm _]%list_elem_of_filter. congruence.
Qed.
End Retrieval.

Section Suggestions.
Context (remote : Remote).

Lemma generateSuggestions_nonempty ms w :
  ms ≠ [] →
  generateSuggestions remote ms w
  = generateContent (SuggestionRequest (recentOf ms))
      (λ n, suggestionResponse remote n (recentOf ms)) (mret []) w.
Proof.
  intros Hne. unfold generateSuggestions.
  destruct (decide (length ms = 0)) as [Hz|_]; [|done].
  by apply nil_length_inv in Hz.
Qed.

Lemma SmartSuggestions_effect_nonempty ms w :
  ms ≠ [] →
  requests (SmartSuggestions_effect remote ms w).2
  = requests w ++ [SuggestionRequest (recentOf ms)]
  ∧ ui_suggestions (ui (SmartSuggestions_effect remote ms w).2)
    = match suggestionResponse remote (length (requests w)) (recentOf ms) with
      | Rejected | BadJson => fallbackSuggestions
      | NoText => []
      | Body l => l
      end.
Proof.
  intros Hne. unfold SmartSuggestions_effect.
  destruct (decide (0 < length ms)) as [_|Hz];
    [|destruct ms; [done|simpl in Hz; lia]].
  destruct w as [st al ce rq u].
  unfold try_finally, try_catch, mbind, Eff_bind, setLoading,
    setSuggestions, setUI, modify.
  cbv beta iota.
  rewrite generateSuggestions_nonempty by done.
  unfold generateContent, mret, Eff_ret.
  cbn [requests localStorage alerts consoleErrors ui].
  by destruct (suggestionResponse remote (length rq) (recentOf ms)).
Qed.

(** C7 (amended): on an empty memory set [generateSuggestions] returns the
    three static strings and leaves the world, hence the list of remote
    requests, as it was. When the remote call is rejected or its text does
    not parse, [generateSuggestions] throws, and [SmartSuggestions] then
    shows its own list of three generic suggestions, which is not the
    static list. *)
Theorem suggestions_fallbacks (w : World) :
  generateSuggestions remote [] w = (Ok staticSuggestions, w)
  ∧ length staticSuggestions = 3
  ∧ length fallbackSuggestions = 3
  ∧ fallbackSuggestions ≠ staticSuggestions
  ∧ (∀ ms, ms ≠ [] →
       suggestionResponse remote (length (requests w)) (recentOf ms) = Rejected
       ∨ suggestionResponse remote (length (requests w)) (recentOf ms) = BadJson →
       (∃ e, (generateSuggestions remote ms w).1 = Throw e)
       ∧ ui_suggestions (ui (SmartSuggestions_effect remote ms w).2)
         = fallbackSuggestions).
Proof.
  split; [done|]. split; [done|]. split; [done|]. split; [done|].
  intros ms Hne Hfail. split.
  - rewrite generateSuggestions_nonempty by done.
    unfold generateContent. destruct Hfail as [-> | ->]; by eexists.
  - destruct (SmartSuggestions_effect_nonempty ms w Hne) as [_ ->].
    by destruct Hfail as [-> | ->].
Qed.

(** C8 (amended): the suggestion call is made only when some memory is
    processed, and what it receives is built from at most the first ten
    of the processed memories of the collection; a pending memory never
    contributes. *)
Theorem suggestion_input_is_processed (w : World) :
  requests (App_suggestions remote w).2
  = requests w
    ++ (if decide (processedMemories (ui_memories (ui w)) = []) then []
        else [SuggestionRequest
                (join "; "
                   (processedContent <$>
                    take 10 (filter (λ m, status m = Some processed)
                               (ui_memories (ui w)))))])
  ∧ length (take 10 (processedMemories (ui_memories (ui w)))) ≤ 10
  ∧ Forall (λ m, status m = Some processed ∧ m ∈ ui_memories (ui w))
      (take 10 (processedMemories (ui_memories (ui w)))).
Proof.
  split; [|split].
  - unfold App_suggestions.
    destruct (decide (processedMemories (ui_memories (ui w)) = []))
      as [Hnil|Hne].
    + rewrite Hnil. destruct w. simpl. by rewrite app_nil_r.
    + by destruct (SmartSuggestions_effect_nonempty _ w Hne) as [-> _].
  - rewrite length_take. lia.
  - apply Forall_forall. intros m (i & Hi & _)%elem_of_take.
    apply list_elem_of_lookup_2 in Hi.
    by apply list_elem_of_filter in Hi.
Qed.
End Suggestions.

(** * Concrete runs *)

Lemma demoWorld_Synced : Synced demoWorld.
Proof. apply refreshMemories_Synced. Qed.

Lemma demoWorld_UniqueIds : UniqueIds (localStorage demoWorld).
Proof. apply (bool_decide_unpack _). by vm_compute. Qed.

Lemma demoWorld_pending :
  pendingMemories (ui_memories (ui demoWorld))
  = [ voiceMemory "v" 40; textMemory "c" 30 (Some pending);
      textMemory "a" 20 (Some pending) ].
Proof. by vm_compute. Qed.

Lemma batch_abort_at_kth_witness :
  alerts (handleBatchProcess (rejectingAt 1) demoWorld).2
  = [batchFailureNotice].
Proof.
  refine (proj2 (proj2 (batch_abort_at_kth (rejectingAt 1) demoWorld 2
                          (textMemory "c" 30 (Some pending)) _ _ _ _ _ _ _))).
  - apply demoWorld_Synced.
  - apply demoWorld_UniqueIds.
  - apply (bool_decide_unpack _). by vm_compute.
  - lia.
  - by rewrite demoWorld_pending.
  - reflexivity.
  - intros j m Hj. rewrite demoWorld_pending.
    destruct j as [|j]; [|lia]. intros [= <-]. by eexists.
Defined.

(** C5 (defect of the code): the workflow does not leave every processed
    record unchanged when it is run again. On the four demo records, with a
    remote model that answers the first request, rejects the second and
    answers afterwards: the first run stores the voice record "v" as
    processed with the content "购买牛奶", then aborts with one failure
    notice; its [catch] branch does not call [refreshMemories], so the
    React list still shows "v" as pending, first among the pending records.
    The second run sends the extraction request of "v" again, then those of
    the two records left pending, and overwrites the stored processed
    record with the new answer "OTHER". *)
Lemma rerun_overwrites_processed_record :
  getMemories (localStorage (handleBatchProcess flakyRemote demoWorld).2) !! 1
  = Some (updatedMem (voiceMemory "v" 40) milkExtraction)
  ∧ status (updatedMem (voiceMemory "v" 40) milkExtraction) = Some processed
  ∧ alerts (handleBatchProcess flakyRemote demoWorld).2 = [batchFailureNotice]
  ∧ pendingMemories
      (ui_memories (ui (handleBatchProcess flakyRemote demoWorld).2)) !! 0
    = Some (voiceMemory "v" 40)
  ∧ requests
      (handleBatchProcess flakyRemote
         (handleBatchProcess flakyRemote demoWorld).2).2
    = requests (handleBatchProcess flakyRemote demoWorld).2
      ++ [ requestOf (voiceMemory "v" 40);
           requestOf (textMemory "c" 30 (Some pending));
           requestOf (textMemory "a" 20 (Some pending)) ]
  ∧ getMemories
      (localStorage
         (handleBatchProcess flakyRemote
            (handleBatchProcess flakyRemote demoWorld).2).2) !! 1
    = Some (updatedMem (voiceMemory "v" 40) otherExtraction)
  ∧ processedContent (updatedMem (voiceMemory "v" 40) otherExtraction)
    = "OTHER".
Proof. repeat split; by vm_compute. Qed.

Lemma demoWorld_ui_ids : NoDup (id <$> ui_memories (ui demoWorld)).
Proof. apply (bool_decide_unpack _). by vm_compute. Qed.

Lemma batch_touches_only_pending_witness :
  length (getMemories
            (localStorage (handleBatchProcess (rejectingAt 1) demoWorld).2))
  = length (getMemories (localStorage demoWorld)).
Proof.
  exact (proj1 (proj2 (proj2 (proj2 (proj2 (proj2
           (batch_touches_only_pending (rejectingAt 1) demoWorld
              demoWorld_ui_ids))))))).
Defined.

Lemma reconciliation_keeps_audio_witness :
  ∃ r i y,
    extractionOf answering 0 (voiceMemory "v" 40) = Some r
    ∧ getMemories (localStorage demoWorld) !! i = Some (voiceMemory "v" 40)
    ∧ getMemories (localStorage (handleBatchProcess answering demoWorld).2)
        !! i = Some y
    ∧ audioData y = Some "QUJD" ∧ mimeType y = Some "audio/webm"
    ∧ id y = "v" ∧ rawContent y = "[语音记录]" ∧ timestamp y = 40%Z
    ∧ processedContent y = ex_processedContent r
    ∧ tags y = ex_tags r
    ∧ status y = Some processed.
Proof.
  refine (proj2 (reconciliation_keeps_audio answering demoWorld
                   demoWorld_Synced demoWorld_UniqueIds)
            0 (voiceMemory "v" 40) "QUJD" "audio/webm" _ _ _ _ _).
  - by rewrite demoWorld_pending.
  - reflexivity.
  - reflexivity.
  - apply (bool_decide_unpack _). by vm_compute.
  - intros j' m _ _. by eexists.
Defined.

Lemma milk_scenario_witness :
  ∃ m, getMemories
         (localStorage
            (handleBatchProcess answering
               (handleTextSubmit "买牛奶" None 1000 "m1" emptyWorld).2).2)
         !! 0 = Some m
       ∧ id m = "m1" ∧ timestamp m = 1000%Z ∧ rawContent m = "买牛奶"
       ∧ status m = Some processed
       ∧ processedContent m = "购买牛奶"
       ∧ tags m !! "Object" = Some ["牛奶"].
Proof.
  refine (proj1 (proj2 (milk_scenario answering emptyWorld 1000 "m1"
                          _ _ _ _ _))).
  - apply NoDup_nil_2.
  - apply not_elem_of_nil.
  - unfold inDateRange. lia.
  - apply Forall_nil_2.
  - reflexivity.
Defined.

Lemma updateMemory_replaces_by_id_witness :
  ∃ stored,
    updateMemory (textMemory "a" 25 (Some processed)) demoStorage
    = Some (Json stored)
    ∧ stored !! 3 = Some (textMemory "a" 25 (Some processed)).
Proof.
  destruct (proj1 (proj2 (updateMemory_replaces_by_id
                            (textMemory "a" 25 (Some processed)) demoStorage))
              3 (textMemory "a" 20 (Some pending)))
    as (stored & H1 & H2 & _).
  - reflexivity.
  - reflexivity.
  - intros j y Hy Hlt.
    destruct j as [|[|[|j]]]; [| | |lia]; injection Hy as <-; discriminate.
  - exists stored. split; [exact H1|exact H2].
Defined.

Lemma search_corpus_is_processed_witness :
  requests (handleSearch answering "milk" demoWorld).2
  = [SearchRequest "milk" [textMemory "d" 10 (Some processed)]].
Proof.
  exact (proj1 (search_corpus_is_processed answering "milk" demoWorld)).
Defined.

Lemma suggestions_fallbacks_witness :
  ui_suggestions
    (ui (SmartSuggestions_effect (rejectingAt 0)
           [textMemory "d" 10 (Some processed)] emptyWorld).2)
  = fallbackSuggestions.
Proof.
  refine (proj2 (proj2 (proj2 (proj2 (proj2
            (suggestions_fallbacks (rejectingAt 0) emptyWorld))))
            [textMemory "d" 10 (Some processed)] _ _)).
  - discriminate.
  - left. reflexivity.
Defined.

(** C7, as stated, fails. With a rejected suggestion call
    [generateSuggestions] does not return a fallback list: it throws, and
    the list [SmartSuggestions] then shows is not the static list returned
    for an empty memory set. With a response that has no text, no suggestion
    is produced at all. *)
Lemma suggestions_failure_is_not_static_fallback :
  (generateSuggestions (rejectingAt 0)
     [textMemory "d" 10 (Some processed)] emptyWorld).1
  = Throw RemoteFailure
  ∧ ui_suggestions
      (ui (SmartSuggestions_effect (rejectingAt 0)
             [textMemory "d" 10 (Some processed)] emptyWorld).2)
    ≠ staticSuggestions
  ∧ ui_suggestions
      (ui (SmartSuggestions_effect answering
             [textMemory "d" 10 (Some processed)] emptyWorld).2)
    = [].
Proof. split; [reflexivity|]. split; [|reflexivity]. intros H. discriminate H. Qed.

(** C8, as stated, fails. In a collection of ten pending memories followed
    by one processed memory, the suggestion call receives the content of the
    eleventh memory, which is not among the first ten, and none of the first
    ten. *)
Lemma suggestion_input_is_not_first_ten :
  requests (App_suggestions answering elevenWorld).2
  = [SuggestionRequest "old"]
  ∧ (textMemory "old" 1 (Some processed)
     ∉ take 10 (ui_memories (ui elevenWorld)))
  ∧ requests (App_suggestions answering elevenWorld).2
    ≠ [SuggestionRequest
         (join "; "
            (processedContent <$> (take 10 (ui_memories (ui elevenWorld)))))].
Proof.
  split; [reflexivity|]. split.
  - apply (bool_decide_unpack _). by vm_compute.
  - intros H. vm_compute in H. discriminate H.
Qed.

(** * Further properties *)

(** ** The storage service: edge cases and composition *)

Lemma replaceById_cons m x (l : list Memory) :
  replaceById m (x :: l)
  = if decide (id x = id m) then m :: l else x :: replaceById m l.
Proof.
  unfold replaceById, findIndex. cbn [list_find].
  destruct (decide (id x = id m)) as [Heq|Hne]; [done|].
  destruct (list_find _ l) as [[i y]|]; done.
Qed.

Lemma replaceById_ids m (l : list Memory) :
  id <$> replaceById m l = id <$> l.
Proof.
  induction l as [|x l IH]; [done|].
  rewrite replaceById_cons.
  destruct (decide (id x = id m)) as [Heq|Hne].
  - by rewrite !fmap_cons, Heq.
  - by rewrite !fmap_cons, IH.
Qed.

(** X1: a storage that reads as empty (nothing stored, text that does not
    parse, or an empty array): unparseable text reads as the empty
    collection; an insert then stores exactly the inserted record, whatever
    was under the key before; an update by id changes nothing. *)
Theorem empty_reading_storage (m : Memory) (st : Storage) :
  getMemories st = [] →
  getMemories (Some Unparseable) = []
  ∧ saveMemory m st = Some (Json [m])
  ∧ getMemories (saveMemory m st) = [withStatus m]
  ∧ updateMemory m st = st.
Proof.
  intros Hempty. split; [done|]. split; [|split].
  - unfold saveMemory. by rewrite Hempty.
  - by rewrite getMemories_saveMemory, Hempty.
  - unfold updateMemory. by rewrite Hempty.
Qed.

(** X2: of two updates that carry the same id, the later one decides: the
    storage is the same as if only the later update had been made. *)
Theorem updateMemory_last_write_wins (m1 m2 : Memory) (st : Storage) :
  id m1 = id m2 →
  updateMemory m2 (updateMemory m1 st) = updateMemory m2 st.
Proof.
  intros Hid. unfold updateMemory at 2 3. rewrite Hid.
  destruct (findIndex (λ x, id x = id m2) (getMemories st)) as [i|] eqn:E.
  - pose proof E as (x & Hi & Hx & Hfirst)%findIndex_Some.
    assert (i < length (getMemories st)) as Hlt by by eapply lookup_lt_Some.
    unfold updateMemory. cbn [getMemories].
    rewrite list_fmap_insert, getMemories_normal.
    assert (findIndex (λ x, id x = id m2)
              (<[i := withStatus m1]> (getMemories st)) = Some i) as ->.
    { apply findIndex_Some. exists (withStatus m1). split; [|split].
      - by apply list_lookup_insert_eq.
      - by rewrite withStatus_id.
      - intros j y Hj Hji. rewrite list_lookup_insert_ne in Hj by lia.
        by eapply Hfirst. }
    by rewrite list_insert_insert_eq.
  - unfold updateMemory. by rewrite E.
Qed.

(** X3: an update by id keeps the number of records and the sequence of
    their ids, so it keeps ids unique; an insert keeps ids unique exactly
    when the id of the new record is not stored yet. *)
Theorem storage_ids_invariant (m : Memory) (st : Storage) :
  id <$> getMemories (updateMemory m st) = id <$> getMemories st
  ∧ length (getMemories (updateMemory m st)) = length (getMemories st)
  ∧ (UniqueIds st → UniqueIds (updateMemory m st))
  ∧ (UniqueIds (saveMemory m st) ↔
     (id m ∉ id <$> getMemories st) ∧ UniqueIds st).
Proof.
  assert (id <$> getMemories (updateMemory m st) = id <$> getMemories st)
    as Hids by by rewrite getMemories_updateMemory, replaceById_ids.
  split; [done|]. split; [|split].
  - by rewrite getMemories_updateMemory, replaceById_length.
  - unfold UniqueIds. by rewrite Hids.
  - unfold UniqueIds. rewrite getMemories_saveMemory, fmap_cons, withStatus_id.
    apply NoDup_cons.
Qed.

(** X4: an insert and an update by another id can be made in either order:
    the collection read afterwards is the same. *)
Theorem saveMemory_updateMemory_commute (n m : Memory) (st : Storage) :
  id n ≠ id m →
  getMemories (updateMemory m (saveMemory n st))
  = getMemories (saveMemory n (updateMemory m st)).
Proof.
  intros Hne.
  rewrite getMemories_updateMemory, !getMemories_saveMemory,
    getMemories_updateMemory.
  rewrite replaceById_cons, !withStatus_id. by rewrite decide_False.
Qed.

Lemma replaceById_commute a b (l : list Memory) :
  id a ≠ id b →
  replaceById a (replaceById b l) = replaceById b (replaceById a l).
Proof.
  intros Hne. induction l as [|x l IH]; [done|].
  rewrite (replaceById_cons b x), (replaceById_cons a x).
  destruct (decide (id x = id b)) as [Hb|Hb];
    destruct (decide (id x = id a)) as [Ha|Ha].
  - congruence.
  - rewrite !replaceById_cons. rewrite decide_False by congruence.
    by rewrite decide_True.
  - rewrite !replaceById_cons. rewrite decide_True by done.
    by rewrite decide_False by congruence.
  - rewrite !replaceById_cons.
    rewrite decide_False by done. rewrite decide_False by done.
    by rewrite IH.
Qed.

(** X5: two updates that carry different ids can be made in either order:
    the collection read afterwards is the same. *)
Theorem updateMemory_commute (a b : Memory) (st : Storage) :
  id a ≠ id b →
  getMemories (updateMemory a (updateMemory b st))
  = getMemories (updateMemory b (updateMemory a st)).
Proof.
  intros Hne. rewrite !getMemories_updateMemory.
  apply replaceById_commute. by rewrite !withStatus_id.
Qed.

(** X6: an update that follows an insert and carries the id of the inserted
    record replaces that record, at the head, also when older records have
    the same id; the older records stay as they were. *)
Theorem insert_then_update_same_id (m m' : Memory) (st : Storage) :
  id m' = id m →
  getMemories (updateMemory m' (saveMemory m st))
  = withStatus m' :: getMemories st.
Proof.
  intros Hid.
  rewrite getMemories_updateMemory, getMemories_saveMemory, replaceById_cons.
  rewrite !withStatus_id. by rewrite decide_True.
Qed.

(** ** [App]: refresh, search and clear-all *)

Lemma filter_insertByTimestamp (t : Z) x l :
  filter (λ m, timestamp m = t) (insertByTimestamp x l)
  = filter (λ m, timestamp m = t) (x :: l).
Proof.
  induction l as [|y r IH]; [done|]. cbn [insertByTimestamp].
  destruct (timestamp x <? timestamp y)%Z eqn:E; [|done].
  apply Z.ltb_lt in E.
  rewrite filter_cons, IH, !filter_cons.
  destruct (decide (timestamp y = t)) as [Hy|Hy];
    destruct (decide (timestamp x = t)) as [Hx|Hx]; try done.
  exfalso. lia.
Qed.

Lemma sortNewestFirst_stable (t : Z) l :
  filter (λ m, timestamp m = t) (sortNewestFirst l)
  = filter (λ m, timestamp m = t) l.
Proof.
  induction l as [|x l IH]; [done|].
  cbn [sortNewestFirst foldr]. rewrite filter_insertByTimestamp.
  rewrite !filter_cons. fold (sortNewestFirst l). by rewrite IH.
Qed.

(** X7: [refreshMemories] never fails. It leaves the storage, the alerts,
    the requests and every React field other than the list of memories as
    they are; it logs one console error, "Failed to load memories", exactly
    when the stored text does not parse into records, and nothing
    otherwise. The list it sets holds the records [getMemories] returns,
    newest first, records of equal timestamp in their stored order. *)
Theorem refreshMemories_sorts (w : World) :
  refreshMemories w
  = (Ok tt,
     mkWorld (localStorage w) (alerts w)
       (consoleErrors w
        ++ match localStorage w with
           | Some Unparseable => ["Failed to load memories"]
           | _ => []
           end)
       (requests w)
       (mkUI (sortNewestFirst (getMemories (localStorage w)))
          (ui_query (ui w)) (ui_searchResult (ui w)) (ui_isSearching (ui w))
          (ui_isProcessingPending (ui w)) (ui_suggestions (ui w))
          (ui_loading (ui w))))
  ∧ ui_memories (ui (refreshMemories w).2) ≡ₚ getMemories (localStorage w)
  ∧ Sorted (λ a b, (timestamp b <= timestamp a)%Z)
      (ui_memories (ui (refreshMemories w).2))
  ∧ (∀ t : Z,
       filter (λ m, timestamp m = t) (ui_memories (ui (refreshMemories w).2))
       = filter (λ m, timestamp m = t) (getMemories (localStorage w))).
Proof.
  destruct w as [st al ce rq u].
  unfold refreshMemories, readStorage, setMemories, setUI, modify, mbind,
    Eff_bind.
  cbn [fst snd requests localStorage alerts consoleErrors ui ui_memories].
  repeat split.
  - apply sortNewestFirst_perm.
  - apply sortNewestFirst_sorted.
  - intros t. apply sortNewestFirst_stable.
Qed.

Section FurtherApp.
Context (remote : Remote).

(** X8: [handleSearch] never throws, raises no alert, leaves the storage
    and the list of memories alone and always ends with [isSearching] false.
    A blank query clears the query and the result without a request. For
    any other query the result becomes the answer of the remote model; when
    the call fails the previous result stays and one console error is
    logged. *)
Theorem handleSearch_outcome (text : string) (w : World) :
  (handleSearch remote text w).1 = Ok tt
  ∧ localStorage (handleSearch remote text w).2 = localStorage w
  ∧ alerts (handleSearch remote text w).2 = alerts w
  ∧ ui_memories (ui (handleSearch remote text w).2) = ui_memories (ui w)
  ∧ ui_isSearching (ui (handleSearch remote text w).2) = false
  ∧ (if trim_is_empty text then
       ui_query (ui (handleSearch remote text w).2) = ""
       ∧ ui_searchResult (ui (handleSearch remote text w).2) = None
       ∧ requests (handleSearch remote text w).2 = requests w
       ∧ consoleErrors (handleSearch remote text w).2 = consoleErrors w
     else
       ui_query (ui (handleSearch remote text w).2) = text
       ∧ match searchResponse remote (length (requests w)) text
                 (processedMemories (ui_memories (ui w))) with
         | Body r =>
             ui_searchResult (ui (handleSearch remote text w).2) = Some r
             ∧ consoleErrors (handleSearch remote text w).2 = consoleErrors w
         | _ =>
             ui_searchResult (ui (handleSearch remote text w).2)
             = ui_searchResult (ui w)
             ∧ consoleErrors (handleSearch remote text w).2
               = consoleErrors w ++ ["Search error"]
         end).
Proof.
  unfold handleSearch. destruct (trim_is_empty text).
  - by destruct w as [st al ce rq [ms q sr srch ip sg ld]].
  - unfold try_finally, try_catch, mbind, Eff_bind, semanticSearch,
      generateContent, setQuery, setIsSearching, setSearchResult,
      console_error, setUI, modify, throw.
    destruct w as [st al ce rq [ms q sr srch ip sg ld]].
    cbn [requests localStorage alerts consoleErrors ui ui_memories].
    by destruct (searchResponse remote (length rq) text (processedMemories ms)).
Qed.

(** X9: after the clear-all button nothing is stored and nothing is listed;
    the batch handler then does nothing, while a search on a query that is
    not blank still calls the remote model, with an empty corpus. *)
Theorem clear_all_then_search (text : string) (w : World) :
  trim_is_empty text = false →
  localStorage (handleClearAll w).2 = None
  ∧ ui_memories (ui (handleClearAll w).2) = []
  ∧ pendingCount (handleClearAll w).2 = 0
  ∧ handleBatchProcess remote (handleClearAll w).2
    = (Ok tt, (handleClearAll w).2)
  ∧ requests (handleSearch remote text (handleClearAll w).2).2
    = requests w ++ [SearchRequest text []].
Proof.
  intros Hblank.
  assert (localStorage (handleClearAll w).2 = None
          ∧ ui_memories (ui (handleClearAll w).2) = []
          ∧ requests (handleClearAll w).2 = requests w) as (H1 & H2 & H3)
    by by destruct w.
  split; [done|]. split; [done|]. split; [|split].
  - unfold pendingCount. by rewrite H2.
  - unfold handleBatchProcess. by rewrite H2.
  - rewrite handleSearch_requests, Hblank, H2, H3. done.
Qed.
End FurtherApp.

(** ** Batch reconciliation: what holds for every run *)

Lemma replaceById_lookup m (l : list Memory) i x :
  l !! i = Some x →
  replaceById m l !! i = Some x
  ∨ (replaceById m l !! i = Some m ∧ id x = id m).
Proof.
  intros Hi. unfold replaceById.
  destruct (findIndex _ l) as [j|] eqn:E; [|by left].
  apply findIndex_Some in E as (y & Hj & Hy & _).
  destruct (decide (j = i)) as [->|Hne].
  - right. rewrite list_lookup_insert_eq by by eapply lookup_lt_Some.
    split; [done|]. congruence.
  - left. by rewrite list_lookup_insert_ne.
Qed.

Lemma persistAll_ids ps : ∀ st,
  id <$> getMemories (persistAll st ps) = id <$> getMemories st.
Proof.
  induction ps as [|[m r] ps IH]; intros st; [done|].
  cbn [persistAll foldl fst snd].
  change (foldl _ ?s ps) with (persistAll s ps).
  by rewrite IH, getMemories_updateMemory, replaceById_ids.
Qed.

Lemma persistAll_monotone ps : ∀ st i x,
  getMemories st !! i = Some x →
  ∃ y, getMemories (persistAll st ps) !! i = Some y
       ∧ id y = id x ∧ (y = x ∨ status y = Some processed).
Proof.
  induction ps as [|[m r] ps IH]; intros st i x Hi.
  - exists x. by repeat split; [|left].
  - cbn [persistAll foldl fst snd].
    change (foldl _ ?s ps) with (persistAll s ps).
    destruct (replaceById_lookup (updatedMem m r) (getMemories st) i x Hi)
      as [Hsame|[Hnew Hid]].
    + apply IH. by rewrite getMemories_updateMemory, updatedMem_withStatus.
    + destruct (IH (updateMemory (updatedMem m r) st) i (updatedMem m r))
        as (y & Hy & Hidy & Hst).
      { by rewrite getMemories_updateMemory, updatedMem_withStatus. }
      exists y. split; [done|]. split; [by rewrite Hidy, Hid|].
      right. by destruct Hst as [->|?].
Qed.

Section EveryRun.
Context (remote : Remote).

Lemma handleBatchProcess_flag w :
  0 < pendingCount w →
  ui_isProcessingPending (ui (handleBatchProcess remote w).2) = false.
Proof.
  unfold pendingCount. intros Hpos. unfold handleBatchProcess.
  destruct (decide (length (pendingMemories (ui_memories (ui w))) = 0))
    as [Hz|_]; [lia|].
  destruct w as [st al ce rq u].
  unfold try_finally, try_catch, mbind, Eff_bind, setIsProcessingPending,
    setUI, modify.
  cbn [requests localStorage alerts consoleErrors ui ui_memories].
  rewrite for_of_reconcile.
  cbn [requests localStorage alerts consoleErrors ui ui_memories].
  destruct (outcomes remote (length rq) (pendingMemories (ui_memories u)))
    as [ps [x|]]; [done|].
  unfold refreshMemories, readStorage, setMemories, setUI, modify, mbind,
    Eff_bind. done.
Qed.

(** X10: whatever the storage and the React state hold, [handleBatchProcess]
    never throws; it keeps the stored records in place, with their ids; each
    stored record is afterwards either as it was or has status processed, so
    a processed record never becomes pending again; and when there was a
    pending memory the handler ends with [isProcessingPending] false. *)
Theorem batch_never_unprocesses (w : World) :
  (handleBatchProcess remote w).1 = Ok tt
  ∧ id <$> getMemories (localStorage (handleBatchProcess remote w).2)
    = id <$> getMemories (localStorage w)
  ∧ (∀ i x, getMemories (localStorage w) !! i = Some x →
       ∃ y, getMemories (localStorage (handleBatchProcess remote w).2) !! i
            = Some y
            ∧ id y = id x ∧ (y = x ∨ status y = Some processed))
  ∧ (∀ i x, getMemories (localStorage w) !! i = Some x →
       status x = Some processed →
       ∃ y, getMemories (localStorage (handleBatchProcess remote w).2) !! i
            = Some y
            ∧ status y = Some processed)
  ∧ (0 < pendingCount w →
     ui_isProcessingPending (ui (handleBatchProcess remote w).2) = false).
Proof.
  destruct (outcomes remote (length (requests w))
              (pendingMemories (ui_memories (ui w)))) as [ps e] eqn:Ho.
  destruct (handleBatchProcess_run remote w ps e Ho) as (Hok & Hst & _).
  split; [done|]. rewrite Hst. split; [apply persistAll_ids|].
  split; [|split].
  - intros i x Hi. by apply persistAll_monotone.
  - intros i x Hi Hproc.
    destruct (persistAll_monotone ps _ i x Hi) as (y & Hy & _ & Hyx).
    exists y. split; [done|]. destruct Hyx as [->|?]; done.
  - apply handleBatchProcess_flag.
Qed.

Lemma outcomes_all_succeed pend c :
  (∀ j m, pend !! j = Some m → is_Some (extractionOf remote (c + j) m)) →
  ∃ ps, outcomes remote c pend = (ps, None).
Proof.
  intros Hall. destruct (outcomes remote c pend) as [ps [x|]] eqn:Ho.
  - destruct (outcomes_stop _ _ _ _ _ Ho) as (m & Hm & Hthrow).
    destruct (Hall _ _ Hm) as [r Hr].
    unfold extractionOf in Hr. by rewrite Hthrow in Hr.
  - by exists ps.
Qed.

(** X11: the React state lists the stored records, ids are unique, the
    pending memories carry timestamps in the [Date] range and every
    extraction call of the run succeeds. Then the run raises no notice, it
    issues one request per pending memory, in collection order; afterwards
    the React state again lists the stored records, no stored record is
    pending, and the batch button counts zero. *)
Theorem complete_run (w : World) :
  Synced w → UniqueIds (localStorage w) →
  DatesInRange (pendingMemories (ui_memories (ui w))) →
  (∀ j m, pendingMemories (ui_memories (ui w)) !! j = Some m →
          is_Some (extractionOf remote (length (requests w) + j) m)) →
  alerts (handleBatchProcess remote w).2 = alerts w
  ∧ requests (handleBatchProcess remote w).2
    = requests w ++ (requestOf <$> pendingMemories (ui_memories (ui w)))
  ∧ Synced (handleBatchProcess remote w).2
  ∧ (∀ m, m ∈ getMemories (localStorage (handleBatchProcess remote w).2) →
          status m = Some processed)
  ∧ pendingCount (handleBatchProcess remote w).2 = 0.
Proof.
  intros Hs Hu _ Hall.
  destruct (outcomes_all_succeed _ _ Hall) as [ps Ho].
  destruct (handleBatchProcess_run remote w ps None Ho)
    as (_ & Hst & Hrq & Hal & Hui).
  destruct (rerun_after_complete_run remote w ps Hs Hu Ho) as [Hnone _].
  assert (Synced (handleBatchProcess remote w).2) as Hs'.
  { unfold Synced. rewrite Hui.
    destruct (decide (length (pendingMemories (ui_memories (ui w))) = 0))
      as [Hz|Hnz].
    - apply nil_length_inv in Hz. rewrite Hz in Ho. simpl in Ho.
      injection Ho as <-. rewrite Hst. exact Hs.
    - rewrite Hst. apply sortNewestFirst_perm. }
  split; [by rewrite Hal, app_nil_r|]. split; [|split; [done|split]].
  - rewrite Hrq, Nat.add_0_r, (outcomes_complete _ _ _ _ Ho).
    by rewrite firstn_all.
  - intros m Hm.
    pose proof (getMemories_status _ _ Hm) as Hdef.
    destruct (status m) as [[|]|] eqn:E; [|done|done].
    exfalso. unfold Synced in Hs'. rewrite <- Hs' in Hm.
    eapply (filter_nil_not_elem_of _ _ m Hnone); [|exact Hm]. done.
  - unfold pendingCount. by rewrite Hnone.
Qed.
End EveryRun.

(** ** The two batch variants, and text capture *)

Lemma for_of_ext {A} (l : list A) (f g : A → Eff unit) :
  (∀ x w, x ∈ l → f x w = g x w) → ∀ w, for_of l f w = for_of l g w.
Proof.
  induction l as [|a l IH]; intros Hfg w; [done|].
  cbn [for_of]. unfold mbind, Eff_bind.
  rewrite Hfg by apply list_elem_of_here.
  destruct (g a w) as [[[]|e] w1]; [|done].
  apply IH. intros x w' Hx. apply Hfg. by apply list_elem_of_further.
Qed.

Lemma payloadOf_text mem :
  present (audioData mem) && present (mimeType mem) = false →
  payloadOf mem = TextInput (rawContent mem).
Proof.
  unfold payloadOf, present.
  destruct (audioData mem) as [data|]; [|done].
  destruct (mimeType mem) as [mime|]; [|done].
  by intros ->.
Qed.

Section Variants.
Context (remote : Remote).

(** X12: the batch handler that always sends [rawContent] as text and the
    audio-aware batch handler do the same, from the result to the whole
    world they leave, whenever no pending memory of the list has both a
    non-empty [audioData] and a non-empty [mimeType]. *)
Theorem textOnly_agrees_without_audio (w : World) :
  (∀ m, m ∈ pendingMemories (ui_memories (ui w)) →
        present (audioData m) && present (mimeType m) = false) →
  handleBatchProcess_textOnly remote w = handleBatchProcess remote w.
Proof.
  intros Hno. unfold handleBatchProcess_textOnly, handleBatchProcess.
  destruct (decide (length (pendingMemories (ui_memories (ui w))) = 0));
    [done|].
  unfold try_finally, try_catch, mbind, Eff_bind.
  destruct (setIsProcessingPending true w) as [[[]|e] w1]; [|done].
  rewrite (for_of_ext _ (reconcile_textOnly remote) (reconcile remote)); [done|].
  intros m w' Hm. unfold reconcile_textOnly, reconcile.
  by rewrite (payloadOf_text m (Hno m Hm)).
Qed.

(** X13: [handleTextSubmit] ignores a blank text altogether. Any other text
    is stored as it was typed, untrimmed, as a pending record in front of
    the stored collection; no request is made and no alert raised; the React
    state is refreshed and the batch button counts one more than the stored
    pending records before. *)
Theorem handleTextSubmit_effects (text : string) (customDate : option Z)
    (now : Z) (newId : string) (w : World) :
  if trim_is_empty text then
    handleTextSubmit text customDate now newId w = (Ok tt, w)
  else
    (handleTextSubmit text customDate now newId w).1 = Ok tt
    ∧ getMemories (localStorage (handleTextSubmit text customDate now newId w).2)
      = {| id := newId; rawContent := text; processedContent := text;
           timestamp := default now customDate; tags := ∅;
           status := Some pending; audioData := None; mimeType := None |}
        :: getMemories (localStorage w)
    ∧ requests (handleTextSubmit text customDate now newId w).2 = requests w
    ∧ alerts (handleTextSubmit text customDate now newId w).2 = alerts w
    ∧ Synced (handleTextSubmit text customDate now newId w).2
    ∧ pendingCount (handleTextSubmit text customDate now newId w).2
      = S (length (pendingMemories (getMemories (localStorage w)))).
Proof.
  destruct (trim_is_empty text) eqn:Hblank.
  - unfold handleTextSubmit. by rewrite Hblank.
  - rewrite handleTextSubmit_run by done. cbn [fst snd].
    set (new := {| id := newId; rawContent := text; processedContent := text;
      timestamp := match customDate with Some d => d | None => now end;
      tags := ∅; status := Some pending; audioData := None;
      mimeType := None |}).
    assert (default now customDate
            = match customDate with Some d => d | None => now end) as ->
      by by destruct customDate.
    fold new.
    set (w1 := (refreshMemories (setStorage (saveMemory new) w).2).2).
    assert (localStorage w1 = saveMemory new (localStorage w)
            ∧ requests w1 = requests w ∧ alerts w1 = alerts w)
      as (Hst & Hrq & Hal) by by destruct w.
    assert (Synced w1) as Hs by apply refreshMemories_Synced.
    assert (getMemories (localStorage w1) = new :: getMemories (localStorage w))
      as Hl by by rewrite Hst, getMemories_saveMemory.
    split; [done|]. split; [done|]. split; [done|]. split; [done|].
    split; [done|].
    unfold pendingCount, pendingMemories. unfold Synced in Hs.
    rewrite Hs, Hl. by rewrite filter_cons_True.
Qed.

(** X14: a text is captured at time [t0] into a storage with unique ids
    that does not hold the new id; [t0] and the stored timestamps lie in the
    [Date] range, and every extraction call succeeds. A search made right
    after the capture sends a corpus without the new record. The new record
    is then the [j]-th pending memory of the list for some [j], and a search
    made after a batch run sends a corpus that holds the new record with
    the content and tags of [r], the answer to the extraction request of
    that record (the [j]-th of the run), and with status processed. *)
Theorem capture_search_batch_search (text query : string) (t0 : Z)
    (newId : string) (w : World) :
  trim_is_empty text = false → trim_is_empty query = false →
  UniqueIds (localStorage w) →
  newId ∉ id <$> getMemories (localStorage w) →
  inDateRange t0 →
  DatesInRange (getMemories (localStorage w)) →
  (∀ c m, is_Some (extractionOf remote c m)) →
  ∃ corpus1 corpus2 r j,
    last (requests
            (handleSearch remote query
               (handleTextSubmit text None t0 newId w).2).2)
    = Some (SearchRequest query corpus1)
    ∧ (newId ∉ id <$> corpus1)
    ∧ pendingMemories
        (ui_memories (ui (handleTextSubmit text None t0 newId w).2)) !! j
      = Some {| id := newId; rawContent := text; processedContent := text;
                timestamp := t0; tags := ∅; status := Some pending;
                audioData := None; mimeType := None |}
    ∧ extractionOf remote (length (requests w) + j)
        {| id := newId; rawContent := text; processedContent := text;
           timestamp := t0; tags := ∅; status := Some pending;
           audioData := None; mimeType := None |}
      = Some r
    ∧ last (requests
              (handleSearch remote query
                 (handleBatchProcess remote
                    (handleTextSubmit text None t0 newId w).2).2).2)
      = Some (SearchRequest query corpus2)
    ∧ {| id := newId; rawContent := text;
         processedContent := ex_processedContent r; timestamp := t0;
         tags := ex_tags r; status := Some processed; audioData := None;
         mimeType := None |} ∈ corpus2.
Proof.
  intros Htext Hquery Hu Hfresh _ _ Hall.
  rewrite (handleTextSubmit_run text None t0 newId w) by done. cbn [snd].
  set (new := {| id := newId; rawContent := text; processedContent := text;
                 timestamp := t0; tags := ∅; status := Some pending;
                 audioData := None; mimeType := None |}).
  set (w1 := (refreshMemories (setStorage (saveMemory new) w).2).2).
  assert (localStorage w1 = saveMemory new (localStorage w)) as Hst1
    by by destruct w.
  assert (requests w1 = requests w) as Hrq1 by by destruct w.
  assert (getMemories (localStorage w1) = new :: getMemories (localStorage w))
    as Hl1 by by rewrite Hst1, getMemories_saveMemory.
  assert (Synced w1) as Hs1 by apply refreshMemories_Synced.
  assert (UniqueIds (localStorage w1)) as Hu1.
  { unfold UniqueIds. rewrite Hl1, fmap_cons. by apply NoDup_cons. }
  destruct (outcomes_all_succeed remote
              (pendingMemories (ui_memories (ui w1))) (length (requests w1)))
    as [ps Ho]; [by intros; apply Hall|].
  assert (new ∈ pendingMemories (ui_memories (ui w1)))
    as Hnew.
  { apply list_elem_of_filter. split; [done|].
    unfold Synced in Hs1. rewrite Hs1, Hl1. apply list_elem_of_here. }
  pose proof Hnew as (j & Hj)%list_elem_of_lookup.
  destruct (outcomes_reaches remote _ _ _ _ j new Ho Hj) as (r & Hps & Hr);
    [by intros; apply Hall|].
  destruct (batch_positions remote w1 ps None Hs1 Hu1 Ho) as (_ & Hdone & _).
  destruct (Hdone j new r Hps) as (i & Hi & Hi').
  destruct (handleBatchProcess_run remote w1 ps None Ho)
    as (_ & Hst2 & _ & _ & Hui2).
  exists (processedMemories (ui_memories (ui w1))),
    (processedMemories (ui_memories (ui (handleBatchProcess remote w1).2))),
    r, j.
  rewrite !handleSearch_requests, Hquery, !last_snoc.
  split; [done|]. split; [|split; [done|split; [by rewrite <- Hrq1|]]].
  2: split; [done|].
  - intros (m & Hid & [Hproc Hm]%list_elem_of_filter)%list_elem_of_fmap.
    unfold Synced in Hs1. rewrite Hs1 in Hm.
    assert (m = new) as ->; [|done].
    eapply same_id_same_record; [exact Hu1|done| |done].
    rewrite Hl1. apply list_elem_of_here.
  - apply list_elem_of_filter. split; [done|].
    rewrite Hui2. rewrite decide_False.
    2:{ intros Hz. apply nil_length_inv in Hz. rewrite Hz in Hnew.
        by apply elem_of_nil in Hnew. }
    rewrite sortNewestFirst_perm, <- Hst2.
    by eapply list_elem_of_lookup_2.
Qed.
End Variants.

(** ** Voice capture: the data URL *)

Lemma append_cons a (s1 s2 : string) :
  String a s1 +:+ s2 = String a (s1 +:+ s2).
Proof. reflexivity. Qed.

Lemma append_empty_l (s : string) : "" +:+ s = s.
Proof. reflexivity. Qed.

Lemma append_empty_r (s : string) : s +:+ "" = s.
Proof.
  induction s as [|a s IH]; [done|]. by rewrite append_cons, IH.
Qed.

Lemma occurs_append c s1 s2 :
  occurs c (s1 +:+ s2) = occurs c s1 || occurs c s2.
Proof.
  induction s1 as [|a s1 IH]; [done|].
  rewrite append_cons. cbn [occurs]. rewrite IH.
  by destruct (Ascii.eqb a c).
Qed.

Lemma splitOn_not_nil c s : splitOn c s ≠ [].
Proof.
  destruct s as [|a s]; [done|]. cbn [splitOn].
  destruct (Ascii.eqb a c); [done|]. by destruct (splitOn c s).
Qed.

Lemma splitOn_free c s : occurs c s = false → splitOn c s = [s].
Proof.
  induction s as [|a s IH]; [done|]. cbn [splitOn occurs].
  destruct (Ascii.eqb a c); [done|]. cbn [orb]. intros Hs. by rewrite IH.
Qed.

Lemma splitOn_append c s1 s2 :
  occurs c s1 = false →
  splitOn c (s1 +:+ s2)
  = match splitOn c s2 with
    | piece :: pieces => (s1 +:+ piece) :: pieces
    | [] => [s1]
    end.
Proof.
  induction s1 as [|a s1 IH].
  - intros _. rewrite append_empty_l.
    destruct (splitOn c s2) eqn:E; [by apply splitOn_not_nil in E|done].
  - cbn [occurs]. rewrite append_cons. cbn [splitOn].
    destruct (Ascii.eqb a c); [done|]. cbn [orb]. intros Hs.
    rewrite IH by done. by destruct (splitOn c s2).
Qed.

Lemma splitOn_append_sep c s1 s2 :
  occurs c s1 = false →
  splitOn c (s1 +:+ String c s2) = s1 :: splitOn c s2.
Proof.
  intros Hs. rewrite splitOn_append by done. cbn [splitOn].
  by rewrite Ascii.eqb_refl, append_empty_r.
Qed.

Lemma dataUrl_pieces (mime data : string) :
  occurs "," mime = false → occurs ":" mime = false →
  occurs ";" mime = false → occurs "," data = false →
  parseDataUrl (dataUrl mime data) = Some (Some data, Some mime)
  ∧ parseDataUrl_atCapture (dataUrl mime data) = (Some data, Some mime).
Proof.
  intros Hcomma Hcolon Hsemi Hdata.
  assert (splitOn "," (dataUrl mime data)
          = [ "data:" +:+ mime +:+ ";base64"; data ]) as Hsplit.
  { unfold dataUrl.
    change ("data:" +:+ mime +:+ ";base64," +:+ data)
      with ("data:" +:+ mime +:+ ";base64" +:+ String "," data).
    rewrite splitOn_append by done. rewrite splitOn_append by done.
    rewrite splitOn_append_sep by done. by rewrite splitOn_free. }
  assert (parseDataUrl (dataUrl mime data) = Some (Some data, Some mime))
    as Hparse.
  { unfold parseDataUrl. rewrite Hsplit. cbn [head lookup list_lookup].
    change ("data:" +:+ mime +:+ ";base64")
      with ("data" +:+ String ":" (mime +:+ ";base64")).
    rewrite splitOn_append_sep by done.
    rewrite (splitOn_free ":") by by rewrite occurs_append, Hcolon.
    cbn [head lookup list_lookup].
    change (mime +:+ ";base64") with (mime +:+ String ";" "base64").
    by rewrite splitOn_append_sep. }
  split; [done|].
  unfold parseDataUrl_atCapture. rewrite Hsplit.
  unfold dataUrl.
  change ("data:" +:+ mime +:+ ";base64," +:+ data)
    with ("data:" +:+ mime +:+ String ";" ("base64," +:+ data)).
  rewrite (splitOn_append ";" "data:") by done.
  rewrite splitOn_append_sep by done. cbn [head lookup list_lookup].
  change ("data:" +:+ mime) with ("data" +:+ String ":" mime).
  rewrite splitOn_append_sep by done. by rewrite splitOn_free.
Qed.

(** X15: for a data URL built from a media type without [:], [;] and [,]
    and from content without [,], both capture variants cut out the same two
    pieces, the content and the media type, although they split the string
    in different orders; and the URL [playAudio] builds from the two pieces
    is the URL they were cut from. *)
Theorem dataUrl_round_trip (mime data : string) :
  occurs "," mime = false → occurs ":" mime = false →
  occurs ";" mime = false → occurs "," data = false →
  parseDataUrl (dataUrl mime data) = Some (Some data, Some mime)
  ∧ parseDataUrl_atCapture (dataUrl mime data) = (Some data, Some mime)
  ∧ (∀ d m, parseDataUrl (dataUrl mime data) = Some (Some d, Some m) →
            dataUrl m d = dataUrl mime data).
Proof.
  intros Hcomma Hcolon Hsemi Hdata.
  destruct (dataUrl_pieces mime data Hcomma Hcolon Hsemi Hdata)
    as [Hparse Hcapture].
  split; [done|]. split; [done|].
  intros d m. rewrite Hparse. by intros [= <- <-].
Qed.

(** ** Voice capture: what is stored and what is sent *)

Lemma capture_storage m w :
  localStorage (refreshMemories (setStorage (saveMemory m) w).2).2
  = saveMemory m (localStorage w)
  ∧ requests (refreshMemories (setStorage (saveMemory m) w).2).2 = requests w
  ∧ alerts (refreshMemories (setStorage (saveMemory m) w).2).2 = alerts w.
Proof. by destruct w. Qed.

(** The record [saveAudioMemory] builds. *)
Lemma saveAudioMemory_run base64data customDate now newId w content mime :
  parseDataUrl base64data = Some (content, mime) →
  saveAudioMemory_onloadend base64data customDate now newId w
  = (Ok tt,
     (refreshMemories
        (setStorage
           (saveMemory
              {| id := newId; rawContent := "[语音记录]";
                 processedContent := "[语音记录] (待整理)";
                 timestamp := default now customDate; tags := ∅;
                 status := Some pending; audioData := content;
                 mimeType := mime |}) w).2).2).
Proof.
  intros Hparse. unfold saveAudioMemory_onloadend. rewrite Hparse.
  destruct w, customDate; reflexivity.
Qed.

(** X16: the callback of [saveAudioMemory]. When the text before the first
    comma has no colon the callback throws: nothing is stored, nothing is
    shown and no alert is raised. Otherwise the recording is stored in front
    of the collection as a pending record with the placeholder texts and the
    two pieces cut from the data URL, no request is made, no alert raised,
    and the React state is refreshed. *)
Theorem saveAudioMemory_effects (base64data : string) (customDate : option Z)
    (now : Z) (newId : string) (w : World) :
  match parseDataUrl base64data with
  | None =>
      (∃ e, (saveAudioMemory_onloadend base64data customDate now newId w).1
            = Throw e)
      ∧ (saveAudioMemory_onloadend base64data customDate now newId w).2 = w
  | Some (content, mime) =>
      (saveAudioMemory_onloadend base64data customDate now newId w).1 = Ok tt
      ∧ getMemories
          (localStorage
             (saveAudioMemory_onloadend base64data customDate now newId w).2)
        = {| id := newId; rawContent := "[语音记录]";
             processedContent := "[语音记录] (待整理)";
             timestamp := default now customDate; tags := ∅;
             status := Some pending; audioData := content;
             mimeType := mime |} :: getMemories (localStorage w)
      ∧ requests (saveAudioMemory_onloadend base64data customDate now newId w).2
        = requests w
      ∧ alerts (saveAudioMemory_onloadend base64data customDate now newId w).2
        = alerts w
      ∧ Synced (saveAudioMemory_onloadend base64data customDate now newId w).2
  end.
Proof.
  destruct (parseDataUrl base64data) as [[content mime]|] eqn:Hparse.
  - rewrite (saveAudioMemory_run _ _ _ _ _ content mime) by done.
    cbn [fst snd].
    destruct (capture_storage
                {| id := newId; rawContent := "[语音记录]";
                   processedContent := "[语音记录] (待整理)";
                   timestamp := default now customDate; tags := ∅;
                   status := Some pending; audioData := content;
                   mimeType := mime |} w) as (Hst & Hrq & Hal).
    split; [done|]. split; [|split; [done|split; [done|]]].
    + by rewrite Hst, getMemories_saveMemory.
    + apply refreshMemories_Synced.
  - unfold saveAudioMemory_onloadend. rewrite Hparse. split; [|done].
    by eexists.
Qed.

Section VoiceCapture.
Context (remote : Remote).

(** X17: a recording whose data URL is built from a media type without
    [:], [;], [,] and from content without [,] is captured at time [t0]
    into a storage with unique ids that does not hold the new id; [t0] and
    the stored timestamps lie in the [Date] range, and every extraction
    call succeeds. The following batch run sends the recording itself as the
    audio payload when content and media type are not empty, and the
    placeholder text when one of them is empty; and the play button of the
    stored record, when both are not empty, plays the data URL the
    recording came in. *)
Theorem voice_capture_then_batch (mime data : string) (t0 : Z)
    (newId : string) (w : World) :
  occurs "," mime = false → occurs ":" mime = false →
  occurs ";" mime = false → occurs "," data = false →
  UniqueIds (localStorage w) →
  newId ∉ id <$> getMemories (localStorage w) →
  inDateRange t0 →
  DatesInRange (getMemories (localStorage w)) →
  (∀ c m, is_Some (extractionOf remote c m)) →
  ∃ voice,
    getMemories
      (localStorage
         (saveAudioMemory_onloadend (dataUrl mime data) None t0 newId w).2)
    !! 0 = Some voice
    ∧ id voice = newId ∧ status voice = Some pending
    ∧ audioData voice = Some data ∧ mimeType voice = Some mime
    ∧ ExtractionRequest
        (if truthy data && truthy mime then AudioInput mime data
         else TextInput "[语音记录]") t0
      ∈ requests
          (handleBatchProcess remote
             (saveAudioMemory_onloadend (dataUrl mime data) None t0 newId w).2).2
    ∧ (truthy data && truthy mime = true →
       audioRef (playAudio voice initialPlayer)
       = Some (mkAudio (dataUrl mime data) true)).
Proof.
  intros Hcomma Hcolon Hsemi Hdata Hu Hfresh _ _ Hall.
  destruct (dataUrl_pieces mime data Hcomma Hcolon Hsemi Hdata) as [Hparse _].
  rewrite (saveAudioMemory_run _ None t0 newId w (Some data) (Some mime))
    by done.
  cbn [snd default].
  set (voice := {| id := newId; rawContent := "[语音记录]";
                   processedContent := "[语音记录] (待整理)";
                   timestamp := t0; tags := ∅; status := Some pending;
                   audioData := Some data; mimeType := Some mime |}).
  set (w1 := (refreshMemories (setStorage (saveMemory voice) w).2).2).
  assert (getMemories (localStorage w1) = voice :: getMemories (localStorage w))
    as Hl1.
  { unfold w1. destruct (capture_storage voice w) as (-> & _).
    by rewrite getMemories_saveMemory. }
  assert (Synced w1) as Hs1 by apply refreshMemories_Synced.
  exists voice. split; [by rewrite Hl1|].
  split; [done|]. split; [done|]. split; [done|]. split; [done|]. split.
  - destruct (outcomes_all_succeed remote
                (pendingMemories (ui_memories (ui w1))) (length (requests w1)))
      as [ps Ho]; [by intros; apply Hall|].
    destruct (handleBatchProcess_run remote w1 ps None Ho)
      as (_ & _ & -> & _).
    rewrite Nat.add_0_r, (outcomes_complete _ _ _ _ Ho), firstn_all.
    apply elem_of_app. right.
    apply list_elem_of_fmap. exists voice. split.
    + unfold requestOf, payloadOf. cbn [audioData mimeType voice timestamp
        rawContent]. by destruct (truthy data && truthy mime).
    + apply list_elem_of_filter. split; [done|].
      unfold Synced in Hs1. rewrite Hs1, Hl1. apply list_elem_of_here.
  - intros Hboth. unfold playAudio.
    cbn [audioData mimeType voice]. by rewrite Hboth.
Qed.

(** X18: the callback of the capture variant that transcribes at once.
    When the extraction call succeeds, a processed record with the extracted
    content and tags, and without the audio, is stored in front of the
    collection. When the call fails the callback throws: nothing is stored,
    no alert is raised and no console error is logged. *)
Theorem processAudio_outcome (mime content : string) (customDate : option Z)
    (now : Z) (newId : string) (w : World) :
  match extractionResponse remote (length (requests w))
          (AudioInput mime content) (default now customDate) with
  | Body r =>
      (processAudio_onloadend remote mime content customDate now newId w).1
      = Ok tt
      ∧ getMemories
          (localStorage
             (processAudio_onloadend remote mime content customDate now
                newId w).2)
        = {| id := newId; rawContent := "[语音记录]";
             processedContent := ex_processedContent r;
             timestamp := default now customDate; tags := ex_tags r;
             status := Some processed; audioData := None;
             mimeType := None |} :: getMemories (localStorage w)
      ∧ alerts (processAudio_onloadend remote mime content customDate now
                  newId w).2 = alerts w
  | _ =>
      (∃ e, (processAudio_onloadend remote mime content customDate now
               newId w).1 = Throw e)
      ∧ localStorage (processAudio_onloadend remote mime content customDate
                        now newId w).2 = localStorage w
      ∧ alerts (processAudio_onloadend remote mime content customDate now
                  newId w).2 = alerts w
      ∧ consoleErrors (processAudio_onloadend remote mime content customDate
                         now newId w).2 = consoleErrors w
      ∧ ui (processAudio_onloadend remote mime content customDate now
              newId w).2 = ui w
  end.
Proof.
  unfold processAudio_onloadend, analyzeInput, generateContent, mbind,
    Eff_bind, throw.
  assert (default now customDate
          = match customDate with Some d => d | None => now end) as ->
    by by destruct customDate.
  destruct (extractionResponse remote (length (requests w))
              (AudioInput mime content)
              match customDate with Some d => d | None => now end)
    as [| | |r]; cbn [fst snd localStorage alerts consoleErrors ui];
    try (split; [by eexists|done]).
  cbv beta iota delta [setStorage modify refreshMemories readStorage
    setMemories setUI mbind Eff_bind].
  cbn [fst snd localStorage alerts consoleErrors ui requests].
  split; [done|]. split; [|done]. by rewrite getMemories_saveMemory.
Qed.
End VoiceCapture.

(** ** Audio playback *)

Lemma playAudio_ok mem p : PlayerOk p → PlayerOk (playAudio mem p).
Proof.
  intros Hp. pose proof Hp as (Hrel & Hmark & Hcur). unfold playAudio.
  destruct (audioData mem) as [data|]; [|exact Hp].
  destruct (mimeType mem) as [mime|]; [|exact Hp].
  destruct (truthy data && truthy mime); [|exact Hp].
  destruct (audioRef p) as [current|] eqn:Ecur.
  - destruct (bool_decide (playingAudioId p = Some (id mem))).
    + split; [done|]. split; [done|]. intros a [= <-]. done.
    + split; [by constructor|]. split; [by eexists|]. by eexists.
  - split; [done|]. split; [by eexists|]. by eexists.
Qed.

Lemma onended_ok p : PlayerOk p → PlayerOk (onended p).
Proof.
  intros Hp. pose proof Hp as (Hrel & Hmark & Hcur). unfold onended.
  destruct (audioRef p) as [current|] eqn:Ecur; [|exact Hp].
  destruct (playing current) eqn:Eplay; [|exact Hp].
  split; [done|]. split; [done|]. intros a [= <-]. done.
Qed.

Lemma player_reachable_ok events : ∀ p,
  PlayerOk p → PlayerOk (foldl playerStep p events).
Proof.
  induction events as [|e events IH]; intros p Hp; [done|].
  apply IH. destruct e; [by apply playAudio_ok|by apply onended_ok].
Qed.

(** X19: after any sequence of presses on play buttons and of recordings
    running to their end, at most the current audio element is playing, a
    card is marked as playing exactly while that element plays, and a press
    on a card without audio data or without media type changes nothing.
    Pressing the button of a card that is not marked twice in a row leaves
    nothing playing and no card marked. *)
Theorem player_invariant (events : list PlayerEvent) (mem : Memory) :
  PlayerOk (foldl playerStep initialPlayer events)
  ∧ (present (audioData mem) && present (mimeType mem) = false →
     playAudio mem (foldl playerStep initialPlayer events)
     = foldl playerStep initialPlayer events)
  ∧ (present (audioData mem) && present (mimeType mem) = true →
     playingAudioId (foldl playerStep initialPlayer events) ≠ Some (id mem) →
     playingAudioId
       (playAudio mem (playAudio mem (foldl playerStep initialPlayer events)))
     = None
     ∧ (∀ a, audioRef
               (playAudio mem
                  (playAudio mem (foldl playerStep initialPlayer events)))
             = Some a → playing a = false)).
Proof.
  assert (PlayerOk initialPlayer) as Hinit.
  { split; [constructor|]. split; [done|done]. }
  split; [by apply player_reachable_ok|]. split.
  - unfold playAudio, present.
    destruct (audioData mem) as [data|]; [|done].
    destruct (mimeType mem) as [mime|]; [|done].
    by intros ->.
  - set (p := foldl playerStep initialPlayer events).
    unfold present.
    destruct (audioData mem) as [data|] eqn:Ed; [|done].
    destruct (mimeType mem) as [mime|] eqn:Em; [|by rewrite andb_false_r].
    intros Hboth Hnot.
    assert (playAudio mem p
            = mkPlayer (Some (id mem))
                (Some (mkAudio (dataUrl mime data) true))
                (match audioRef p with
                 | Some current => pause current :: released p
                 | None => released p
                 end)) as ->.
    { unfold playAudio. rewrite Ed, Em, Hboth.
      destruct (audioRef p); [|done].
      by rewrite bool_decide_eq_false_2. }
    unfold playAudio. rewrite Ed, Em, Hboth. cbn [audioRef playingAudioId].
    rewrite bool_decide_eq_true_2 by done. cbn [audioRef playingAudioId].
    split; [done|]. by intros a [= <-].
Qed.

(** ** Suggestions *)

Section FurtherSuggestions.
Context (remote : Remote).

(** X20: [generateSuggestions] looks at the first ten memories only: on a
    list that is not empty it behaves, request and result, as on the list
    of its first ten memories. *)
Theorem generateSuggestions_first_ten (ms : list Memory) (w : World) :
  ms ≠ [] →
  generateSuggestions remote ms w = generateSuggestions remote (take 10 ms) w.
Proof.
  intros Hne.
  assert (take 10 ms ≠ []) as Hne' by by destruct ms.
  rewrite !generateSuggestions_nonempty by done.
  unfold recentOf, slice0. by rewrite take_take.
Qed.

Lemma SmartSuggestions_effect_frame ms w :
  (SmartSuggestions_effect remote ms w).1 = Ok tt
  ∧ localStorage (SmartSuggestions_effect remote ms w).2 = localStorage w
  ∧ alerts (SmartSuggestions_effect remote ms w).2 = alerts w
  ∧ consoleErrors (SmartSuggestions_effect remote ms w).2 = consoleErrors w
  ∧ ui_memories (ui (SmartSuggestions_effect remote ms w).2)
    = ui_memories (ui w)
  ∧ (ms ≠ [] → ui_loading (ui (SmartSuggestions_effect remote ms w).2) = false).
Proof.
  unfold SmartSuggestions_effect.
  destruct (decide (0 < length ms)) as [Hpos|Hz].
  - assert (ms ≠ []) as Hne by (destruct ms; [simpl in Hpos; lia|done]).
    destruct w as [st al ce rq u].
    unfold try_finally, try_catch, mbind, Eff_bind, setLoading,
      setSuggestions, setUI, modify.
    cbv beta iota.
    rewrite generateSuggestions_nonempty by done.
    unfold generateContent, mret, Eff_ret.
    cbn [requests localStorage alerts consoleErrors ui].
    by destruct (suggestionResponse remote (length rq) (recentOf ms)).
  - repeat split; try done. intros Hne. destruct ms; [done|]. simpl in Hz. lia.
Qed.

(** X21: the effect of [SmartSuggestions] never throws, raises no alert,
    logs no console error and leaves the storage and the list of memories
    alone, whatever the remote model does. With an empty list it does
    nothing at all, so suggestions shown before stay. Otherwise it makes one
    request and ends with [loading] false, showing the list the model
    returned, the component's own three suggestions when the call was
    rejected or did not parse, and nothing when the response had no text. *)
Theorem SmartSuggestions_resilient (ms : list Memory) (w : World) :
  (SmartSuggestions_effect remote ms w).1 = Ok tt
  ∧ localStorage (SmartSuggestions_effect remote ms w).2 = localStorage w
  ∧ alerts (SmartSuggestions_effect remote ms w).2 = alerts w
  ∧ consoleErrors (SmartSuggestions_effect remote ms w).2 = consoleErrors w
  ∧ ui_memories (ui (SmartSuggestions_effect remote ms w).2)
    = ui_memories (ui w)
  ∧ (ms = [] → (SmartSuggestions_effect remote ms w).2 = w)
  ∧ (ms ≠ [] →
     ui_loading (ui (SmartSuggestions_effect remote ms w).2) = false
     ∧ requests (SmartSuggestions_effect remote ms w).2
       = requests w ++ [SuggestionRequest (recentOf ms)]
     ∧ ui_suggestions (ui (SmartSuggestions_effect remote ms w).2)
       = match suggestionResponse remote (length (requests w)) (recentOf ms)
         with
         | Rejected | BadJson => fallbackSuggestions
         | NoText => []
         | Body l => l
         end).
Proof.
  destruct (SmartSuggestions_effect_frame ms w)
    as (H1 & H2 & H3 & H4 & H5 & H6).
  repeat (split; [done|]). split.
  - by intros ->.
  - intros Hne. split; [by apply H6|].
    by apply SmartSuggestions_effect_nonempty.
Qed.
End FurtherSuggestions.

(** ** A whole session *)

Lemma refreshMemories_SessionOk w : SessionOk (refreshMemories w).2.
Proof.
  destruct w as [st al ce rq u].
  unfold SessionOk, refreshMemories, readStorage, setMemories, setUI, modify,
    mbind, Eff_bind.
  cbn [fst snd localStorage ui ui_memories].
  split; [apply sortNewestFirst_sorted|]. split.
  - by rewrite sortNewestFirst_perm.
  - apply Forall_forall. intros m Hm. rewrite sortNewestFirst_perm in Hm.
    rewrite (getMemories_status _ _ Hm). by eexists.
Qed.

Lemma SessionOk_frame w w' :
  ui_memories (ui w') = ui_memories (ui w) →
  id <$> getMemories (localStorage w') = id <$> getMemories (localStorage w) →
  SessionOk w → SessionOk w'.
Proof. unfold SessionOk. by intros -> ->. Qed.

Section Session.
Context (remote : Remote).

Lemma handleSearch_frame text w :
  ui_memories (ui (handleSearch remote text w).2) = ui_memories (ui w)
  ∧ localStorage (handleSearch remote text w).2 = localStorage w.
Proof.
  unfold handleSearch. destruct (trim_is_empty text).
  - by destruct w as [st al ce rq [ms q sr srch ip sg ld]].
  - unfold try_finally, try_catch, mbind, Eff_bind, semanticSearch,
      generateContent, setQuery, setIsSearching, setSearchResult,
      console_error, setUI, modify, throw.
    destruct w as [st al ce rq [ms q sr srch ip sg ld]].
    cbn [requests localStorage alerts consoleErrors ui ui_memories].
    by destruct (searchResponse remote (length rq) text (processedMemories ms)).
Qed.

Lemma perform_SessionOk w a : SessionOk w → SessionOk (perform remote w a).
Proof.
  intros Hw. destruct a as [text cd now newId|url cd now newId| |text| | | |];
    cbn [perform].
  - destruct (trim_is_empty text) eqn:Hblank.
    + unfold handleTextSubmit. by rewrite Hblank.
    + rewrite handleTextSubmit_run by done. apply refreshMemories_SessionOk.
  - destruct (parseDataUrl url) as [[content mime]|] eqn:Hparse.
    + rewrite (saveAudioMemory_run _ _ _ _ _ content mime) by done.
      apply refreshMemories_SessionOk.
    + unfold saveAudioMemory_onloadend. by rewrite Hparse.
  - destruct (outcomes remote (length (requests w))
                (pendingMemories (ui_memories (ui w)))) as [ps e] eqn:Ho.
    destruct (handleBatchProcess_run remote w ps e Ho)
      as (_ & Hst & _ & _ & Hui).
    assert (id <$> getMemories (localStorage (handleBatchProcess remote w).2)
            = id <$> getMemories (localStorage w)) as Hids
      by by rewrite Hst, persistAll_ids.
    destruct e as [x|];
      [by apply (SessionOk_frame w)|].
    destruct (decide (length (pendingMemories (ui_memories (ui w))) = 0));
      [by apply (SessionOk_frame w)|].
    destruct Hw as (_ & _ & _). unfold SessionOk. rewrite Hui.
    split; [apply sortNewestFirst_sorted|]. split.
    + by rewrite sortNewestFirst_perm, Hst.
    + apply Forall_forall. intros m Hm. rewrite sortNewestFirst_perm in Hm.
      rewrite (getMemories_status _ _ Hm). by eexists.
  - destruct (handleSearch_frame text w) as [Hui Hst].
    apply (SessionOk_frame w); [done|by rewrite Hst|done].
  - apply (SessionOk_frame w); [by destruct w|by destruct w|done].
  - apply refreshMemories_SessionOk.
  - apply refreshMemories_SessionOk.
  - unfold App_suggestions.
    destruct (SmartSuggestions_effect_frame remote
                (processedMemories (ui_memories (ui w))) w)
      as (_ & Hst & _ & _ & Hui & _).
    apply (SessionOk_frame w); [done|by rewrite Hst|done].
Qed.

(** X22: from the first refresh on, whatever sequence of text captures,
    voice captures, batch runs, searches, clearings, refreshes and
    suggestion effects follows and whatever the remote model answers, the
    list of memories on screen is sorted newest first, shows exactly the
    ids that are stored, and holds only records that have a status. *)
Theorem session_invariant (w0 : World) (actions : list Action) :
  SessionOk (performAll remote (refreshMemories w0).2 actions).
Proof.
  unfold performAll.
  generalize (refreshMemories_SessionOk w0).
  generalize ((refreshMemories w0).2). clear w0.
  induction actions as [|a actions IH]; intros w Hw; [done|].
  cbn [foldl]. apply IH. by apply perform_SessionOk.
Qed.
End Session.

(** ** Retrying after an aborted run *)

Section Retry.
Context (remote : Remote).

(** X23: the React state lists the stored records, ids are unique, and a
    batch run reconciles its first pending memory but is stopped by a failed
    extraction call later on, at the pending memory of index [k]; the
    pending memories up to that one carry timestamps in the [Date] range.
    The handler does not refresh the React state in that case: the list
    still shows the first memory as pending although it is stored as
    processed, and a second run, started from that state, sends a request
    for that memory again before any other. *)
Theorem retry_after_abort (w : World) (k : nat) (m mk : Memory) :
  Synced w → UniqueIds (localStorage w) →
  DatesInRange (take (S k) (pendingMemories (ui_memories (ui w)))) →
  1 ≤ k →
  pendingMemories (ui_memories (ui w)) !! 0 = Some m →
  pendingMemories (ui_memories (ui w)) !! k = Some mk →
  extractionOf remote (length (requests w) + k) mk = None →
  (∀ j m', j < k →
     pendingMemories (ui_memories (ui w)) !! j = Some m' →
     is_Some (extractionOf remote (length (requests w) + j) m')) →
  (∃ r i,
     getMemories (localStorage w) !! i = Some m
     ∧ getMemories (localStorage (handleBatchProcess remote w).2) !! i
       = Some (updatedMem m r))
  ∧ ui_memories (ui (handleBatchProcess remote w).2) = ui_memories (ui w)
  ∧ m ∈ pendingMemories (ui_memories (ui (handleBatchProcess remote w).2))
  ∧ requests (handleBatchProcess remote (handleBatchProcess remote w).2).2
      !! length (requests (handleBatchProcess remote w).2)
    = Some (requestOf m).
Proof.
  intros Hs Hu _ Hk Hm Hmk Hfail Hsucc.
  destruct (outcomes remote (length (requests w))
              (pendingMemories (ui_memories (ui w)))) as [ps e] eqn:Ho.
  destruct (outcomes_first_failure remote _ _ _ _ _ _ Ho Hmk Hfail Hsucc)
    as [Hlen [x ->]].
  destruct (outcomes_reaches remote _ _ _ _ 0 m Ho Hm) as (r & Hps & _).
  { intros j' m' Hle Hm'. apply Hsucc; [lia|done]. }
  destruct (batch_positions remote w ps _ Hs Hu Ho) as (_ & Hdone & _).
  destruct (Hdone 0 m r Hps) as (i & Hi & Hi').
  destruct (handleBatchProcess_run remote w ps _ Ho) as (_ & _ & _ & _ & Hui).
  split; [by exists r, i|]. split; [done|]. rewrite Hui.
  split; [by eapply list_elem_of_lookup_2|].
  set (w' := (handleBatchProcess remote w).2) in *.
  destruct (outcomes remote (length (requests w'))
              (pendingMemories (ui_memories (ui w')))) as [ps' e'] eqn:Ho'.
  destruct (handleBatchProcess_run remote w' ps' e' Ho') as (_ & _ & -> & _).
  rewrite Hui in Ho' |- *.
  rewrite lookup_app_r by lia. rewrite Nat.sub_diag, list_lookup_fmap.
  rewrite lookup_take_lt; [by rewrite Hm|].
  destruct e' as [x'|]; [lia|].
  rewrite (outcomes_complete _ _ _ _ Ho'), Nat.add_0_r.
  by eapply lookup_lt_Some.
Qed.
End Retry.

(** * Concrete runs of the further properties *)

Lemma empty_reading_storage_witness :
  saveMemory (textMemory "a" 1 None) (Some Unparseable)
  = Some (Json [textMemory "a" 1 None]).
Proof.
  exact (proj1 (proj2 (empty_reading_storage (textMemory "a" 1 None)
                         (Some Unparseable) eq_refl))).
Defined.

Lemma updateMemory_last_write_wins_witness :
  updateMemory (textMemory "a" 22 (Some processed))
    (updateMemory (textMemory "a" 21 (Some pending)) demoStorage)
  = updateMemory (textMemory "a" 22 (Some processed)) demoStorage.
Proof.
  exact (updateMemory_last_write_wins (textMemory "a" 21 (Some pending))
           (textMemory "a" 22 (Some processed)) demoStorage eq_refl).
Defined.

Lemma saveMemory_updateMemory_commute_witness :
  getMemories
    (updateMemory (textMemory "a" 25 (Some processed))
       (saveMemory (textMemory "n" 50 (Some pending)) demoStorage))
  = getMemories
      (saveMemory (textMemory "n" 50 (Some pending))
         (updateMemory (textMemory "a" 25 (Some processed)) demoStorage)).
Proof.
  apply (saveMemory_updateMemory_commute (textMemory "n" 50 (Some pending))
           (textMemory "a" 25 (Some processed)) demoStorage).
  discriminate.
Defined.

Lemma updateMemory_commute_witness :
  getMemories
    (updateMemory (textMemory "a" 25 (Some processed))
       (updateMemory (textMemory "c" 35 (Some processed)) demoStorage))
  = getMemories
      (updateMemory (textMemory "c" 35 (Some processed))
         (updateMemory (textMemory "a" 25 (Some processed)) demoStorage)).
Proof.
  apply (updateMemory_commute (textMemory "a" 25 (Some processed))
           (textMemory "c" 35 (Some processed)) demoStorage).
  discriminate.
Defined.

Lemma insert_then_update_same_id_witness :
  getMemories
    (updateMemory (textMemory "a" 60 (Some processed))
       (saveMemory (textMemory "a" 50 (Some pending)) demoStorage))
  = textMemory "a" 60 (Some processed) :: getMemories demoStorage.
Proof.
  exact (insert_then_update_same_id (textMemory "a" 50 (Some pending))
           (textMemory "a" 60 (Some processed)) demoStorage eq_refl).
Defined.

Lemma clear_all_then_search_witness :
  requests (handleSearch answering "milk" (handleClearAll demoWorld).2).2
  = [SearchRequest "milk" []].
Proof.
  exact (proj2 (proj2 (proj2 (proj2
           (clear_all_then_search answering "milk" demoWorld eq_refl))))).
Defined.

Lemma complete_run_witness :
  pendingCount (handleBatchProcess answering demoWorld).2 = 0.
Proof.
  refine (proj2 (proj2 (proj2 (proj2
            (complete_run answering demoWorld demoWorld_Synced
               demoWorld_UniqueIds _ _))))).
  - apply (bool_decide_unpack _). by vm_compute.
  - intros j m _. by eexists.
Defined.

Lemma textWorld_pending :
  pendingMemories (ui_memories (ui textWorld))
  = [textMemory "c" 30 (Some pending)].
Proof. by vm_compute. Qed.

Lemma textOnly_agrees_without_audio_witness :
  handleBatchProcess_textOnly answering textWorld
  = handleBatchProcess answering textWorld.
Proof.
  apply (textOnly_agrees_without_audio answering textWorld).
  intros m. rewrite textWorld_pending.
  intros ->%list_elem_of_singleton. reflexivity.
Defined.

Lemma capture_search_batch_search_witness :
  ∃ corpus1 corpus2 r j,
    last (requests
            (handleSearch answering "milk"
               (handleTextSubmit "买牛奶" None 1000 "m1" emptyWorld).2).2)
    = Some (SearchRequest "milk" corpus1)
    ∧ ("m1" ∉ id <$> corpus1)
    ∧ pendingMemories
        (ui_memories
           (ui (handleTextSubmit "买牛奶" None 1000 "m1" emptyWorld).2)) !! j
      = Some {| id := "m1"; rawContent := "买牛奶";
                processedContent := "买牛奶"; timestamp := 1000; tags := ∅;
                status := Some pending; audioData := None;
                mimeType := None |}
    ∧ extractionOf answering (length (requests emptyWorld) + j)
        {| id := "m1"; rawContent := "买牛奶"; processedContent := "买牛奶";
           timestamp := 1000; tags := ∅; status := Some pending;
           audioData := None; mimeType := None |}
      = Some r
    ∧ last (requests
              (handleSearch answering "milk"
                 (handleBatchProcess answering
                    (handleTextSubmit "买牛奶" None 1000 "m1" emptyWorld).2).2).2)
      = Some (SearchRequest "milk" corpus2)
    ∧ {| id := "m1"; rawContent := "买牛奶";
         processedContent := ex_processedContent r; timestamp := 1000;
         tags := ex_tags r; status := Some processed; audioData := None;
         mimeType := None |} ∈ corpus2.
Proof.
  apply (capture_search_batch_search answering "买牛奶" "milk" 1000 "m1"
           emptyWorld).
  - reflexivity.
  - reflexivity.
  - apply NoDup_nil_2.
  - apply not_elem_of_nil.
  - unfold inDateRange. lia.
  - apply Forall_nil_2.
  - intros c m. by eexists.
Defined.

Lemma dataUrl_round_trip_witness :
  parseDataUrl "data:audio/webm;base64,QUJD"
  = Some (Some "QUJD", Some "audio/webm").
Proof.
  exact (proj1 (dataUrl_round_trip "audio/webm" "QUJD"
                  eq_refl eq_refl eq_refl eq_refl)).
Defined.

Lemma voice_capture_then_batch_witness :
  ∃ voice,
    getMemories
      (localStorage
         (saveAudioMemory_onloadend "data:audio/webm;base64,QUJD" None 1000
            "v1" emptyWorld).2)
    !! 0 = Some voice
    ∧ id voice = "v1" ∧ status voice = Some pending
    ∧ audioData voice = Some "QUJD" ∧ mimeType voice = Some "audio/webm"
    ∧ ExtractionRequest (AudioInput "audio/webm" "QUJD") 1000
      ∈ requests
          (handleBatchProcess answering
             (saveAudioMemory_onloadend "data:audio/webm;base64,QUJD" None
                1000 "v1" emptyWorld).2).2
    ∧ (true = true →
       audioRef (playAudio voice initialPlayer)
       = Some (mkAudio "data:audio/webm;base64,QUJD" true)).
Proof.
  apply (voice_capture_then_batch answering "audio/webm" "QUJD" 1000 "v1"
           emptyWorld).
  - reflexivity.
  - reflexivity.
  - reflexivity.
  - reflexivity.
  - apply NoDup_nil_2.
  - apply not_elem_of_nil.
  - unfold inDateRange. lia.
  - apply Forall_nil_2.
  - intros c m. by eexists.
Defined.

Lemma generateSuggestions_first_ten_witness :
  length (tenPending ++ [textMemory "old" 1 (Some processed)]) = 11
  ∧ generateSuggestions answering
      (tenPending ++ [textMemory "old" 1 (Some processed)]) emptyWorld
    = generateSuggestions answering
        (take 10 (tenPending ++ [textMemory "old" 1 (Some processed)]))
        emptyWorld.
Proof.
  split; [reflexivity|].
  apply (generateSuggestions_first_ten answering). discriminate.
Defined.

Lemma retry_after_abort_witness :
  requests
    (handleBatchProcess (rejectingAt 1)
       (handleBatchProcess (rejectingAt 1) demoWorld).2).2
    !! length (requests (handleBatchProcess (rejectingAt 1) demoWorld).2)
  = Some (requestOf (voiceMemory "v" 40)).
Proof.
  refine (proj2 (proj2 (proj2
            (retry_after_abort (rejectingAt 1) demoWorld 1
               (voiceMemory "v" 40) (textMemory "c" 30 (Some pending))
               demoWorld_Synced demoWorld_UniqueIds _ _ _ _ _ _)))).
  - apply (bool_decide_unpack _). by vm_compute.
  - lia.
  - by rewrite demoWorld_pending.
  - by rewrite demoWorld_pending.
  - reflexivity.
  - intros j m' Hj. rewrite demoWorld_pending.
    destruct j as [|j]; [|lia]. intros [= <-]. by eexists.
Defined.
